(** * BlockVote blockchain engine: a shallow embedding of
    [blockchain/blockchain.go] and [blockchain/block.go] and proofs of the
    block-store, admission, fork-reconciliation and query properties. *)

From Stdlib Require Import ZArith List Lia Bool.
From Stdlib Require Import Strings.Byte.
From stdpp Require Import base gmap list strings.
Import ListNotations.
Open Scope Z_scope.

(* ------------------------------------------------------------------ *)
(** ** Byte strings *)

(** Go's [[]byte]. *)
Abbreviation bytes := (list Byte.byte).

#[global] Instance byte_eq_dec : EqDecision Byte.byte := Byte.byte_eq_dec.

#[global] Program Instance byte_countable : Countable Byte.byte :=
  inj_countable Byte.to_N Byte.of_N _.
Next Obligation. intros x. apply Byte.of_to_N. Qed.

(** [bytes.Compare(a, b) == 0] *)
Definition bytes_eqb (a b : bytes) : bool := bool_decide (a = b).

Lemma bytes_eqb_spec (a b : bytes) : bytes_eqb a b = true <-> a = b.
Proof. unfold bytes_eqb. apply bool_decide_eq_true. Qed.

(* ------------------------------------------------------------------ *)
(** ** Data model (block.go and the transaction model) *)

Record Ballot := {
  VoterName : string;
  VoterStudentID : string;
  VoterCandidate : string
}.

Record TxInput := {
  in_ID : bytes;        (* id of the referenced transaction *)
  in_Out : Z;           (* index of the referenced output *)
  in_Signature : bytes;
  in_PubKey : bytes
}.

Record TxOutput := {
  Value : Z;
  PubKeyHash : bytes
}.

Record Transaction := {
  Data : Ballot;
  ID : bytes;
  Inputs : list TxInput;
  Outputs : list TxOutput;
  Signature : bytes;
  PublicKey : bytes
}.

Record Block := {
  PrevHash : bytes;
  BlockNum : Z;         (* uint8 *)
  Nonce : Z;            (* uint32 *)
  Txns : list Transaction;
  MinerID : string;
  Hash : bytes
}.

(** [BlockChain]: the tip pointer and the blocks visible in the database.
    The database maps ["block-" ++ hash] to [Encode(block)]; since the key
    prefix is fixed and [DecodeToBlock (Encode b) = b], the store is kept
    here as a map from the block hash to the block. *)
Record BlockChain := {
  LastHash : bytes;
  blocks : gmap bytes Block
}.

(** [IsLockedWithKey] (transaction model, not under src/).
    Modelled from the spec: an output is locked with [pkh] when its
    [pub_key_hash] is [pkh]. *)
Definition IsLockedWithKey (out : TxOutput) (pubKeyHash : bytes) : bool :=
  bytes_eqb (PubKeyHash out) pubKeyHash.

(* ------------------------------------------------------------------ *)
(** ** A state monad with fatal errors

    [None] is a [log.Fatal] (missing block, storage failure) or a walk
    that never ends. *)

Definition M (A : Type) : Type := BlockChain -> option (A * BlockChain).

Definition ret {A} (x : A) : M A := fun bc => Some (x, bc).
Definition bind {A B} (c : M A) (k : A -> M B) : M B :=
  fun bc => match c bc with
            | Some (x, bc') => k x bc'
            | None => None
            end.
Definition get_bc : M BlockChain := fun bc => Some (bc, bc).
Definition put_bc (bc' : BlockChain) : M unit := fun _ => Some (tt, bc').
Definition fatal {A} : M A := fun _ => None.

Notation "'let*' x ':=' c 'in' k" := (bind c (fun x => k))
  (at level 200, x name, c at level 100, k at level 200).

(* ------------------------------------------------------------------ *)
(** ** Proof of work (proof.go, not under src/)

    The 256-bit digest of [serialize(prev_hash, txns, block_num, nonce,
    miner_id)], its numeric value and the difficulty target are the
    hashing collaborator of the core. *)

Class Hasher := {
  digest : Block -> bytes;
  digest_value : bytes -> Z;
  target : Z
}.

(** Modelled from the spec: [PoW.Validate] recomputes the digest with the
    block's stored nonce and checks it against the target and against
    [block.hash]. *)
Definition Validate `{Hasher} (b : Block) : bool :=
  (digest_value (digest b) <? target) && bytes_eqb (digest b) (Hash b).

(* ------------------------------------------------------------------ *)
(** ** BlockChain APIs *)

(** [Exist(hash)] *)
Definition Exist (hash : bytes) : M bool :=
  fun bc => Some (bool_decide (is_Some (blocks bc !! hash)), bc).

(** [Get(hash)]: [log.Fatal] when the key is missing. *)
Definition Get (hash : bytes) : M Block :=
  fun bc => match blocks bc !! hash with
            | Some b => Some (b, bc)
            | None => None
            end.

(** [Genesis()]: [pow.Run()] fills in the nonce and the hash; they are
    the arguments here. *)
Definition Genesis (nonce : Z) (hash : bytes) : Block := {|
  PrevHash := [];
  BlockNum := 0;
  Nonce := nonce;
  Txns := [];
  MinerID := "Coord";
  Hash := hash
|}.

(** [Init()] on a database; [LastHashKey] present means already
    initialised. The database is written with [PutMulti]. *)
Definition Init (lastHashKeyExists : bool) (nonce : Z) (hash : bytes)
    : option BlockChain :=
  if lastHashKeyExists then None
  else let genesis := Genesis nonce hash in
       Some {| LastHash := Hash genesis;
               blocks := {[ Hash genesis := genesis ]} |}.

(** [Put(block, owned)] *)
Definition Put `{Hasher} (block : Block) (owned : bool) : M bool :=
  if (bool_decide (PrevHash block = []) || (BlockNum block =? 0)
      || bool_decide (Hash block = []) || bool_decide (MinerID block = ""))%bool
  then ret false
  else
  let* parent := Exist (PrevHash block) in
  if negb parent then ret false else
  let* dup := Exist (Hash block) in
  if dup then ret false else
  if (negb owned && negb (Validate block))%bool then ret false else
  let* bc := get_bc in
  let bc := {| LastHash := LastHash bc;
               blocks := <[ Hash block := block ]> (blocks bc) |} in
  let bc := if bytes_eqb (PrevHash block) (LastHash bc)
            then {| LastHash := Hash block; blocks := blocks bc |}
            else bc in
  let* _ := put_bc bc in
  ret true.

(* ------------------------------------------------------------------ *)
(** ** ChainIterator *)

Record ChainIterator := {
  it_LastHash : bytes;
  CurrentHash : bytes;
  Index : Z
}.

(** [NewIterator(hash)] *)
Definition NewIterator (hash : bytes) : ChainIterator :=
  {| it_LastHash := hash; CurrentHash := hash; Index := -1 |}.

(** [iter.Next()]: the block at the cursor, [end] when it is genesis. *)
Definition Next (iter : ChainIterator) : M (Block * bool * ChainIterator) :=
  let* block := Get (CurrentHash iter) in
  ret (block, BlockNum block =? 0,
       {| it_LastHash := it_LastHash iter;
          CurrentHash := PrevHash block;
          Index := Index iter + 1 |}).

(** The walking loops of the source are unbounded. They run here on
    [loop_fuel] = one more than the number of stored blocks: a walk that
    calls [Next] more often than that visits some hash twice and, the
    store being immutable, cycles forever; running out of fuel is then
    the same [None] as a [log.Fatal]. *)
Definition loop_fuel (bc : BlockChain) : nat := S (size (blocks bc)).

(* ------------------------------------------------------------------ *)
(** ** CheckoutFork *)

(** [for block, end := iter.Next(); !end; ... {
       hashes = append([][]byte{block.Hash}, hashes...) }] *)
Fixpoint collect_hashes (fuel : nat) (iter : ChainIterator) (acc : list bytes)
    : M (list bytes) :=
  match fuel with
  | O => fatal
  | S fuel =>
      let* r := Next iter in
      let '(block, end_, iter) := r in
      if end_ then ret acc
      else collect_hashes fuel iter (Hash block :: acc)
  end.

(** [for ; i < min(len(new), len(old)); i++ { if differ { break } }] *)
Fixpoint first_diff (hn ho : list bytes) : nat :=
  match hn, ho with
  | h1 :: hn, h2 :: ho => if bytes_eqb h1 h2 then S (first_diff hn ho) else O
  | _, _ => O
  end.

(** [for _, hash := range hashes[i:] { block := bc.Get(hash); append txns }] *)
Fixpoint collect_txns (hashes : list bytes) (acc : list Transaction)
    : M (list Transaction) :=
  match hashes with
  | [] => ret acc
  | h :: hs => let* block := Get h in collect_txns hs (acc ++ Txns block)
  end.

(** [CheckoutFork(lastHashNew) (newTxns, oldTxns)] *)
Definition CheckoutFork (lastHashNew : bytes)
    : M (list Transaction * list Transaction) :=
  let* bc := get_bc in
  if bytes_eqb lastHashNew (LastHash bc) then ret ([], []) else
  let* hn := collect_hashes (loop_fuel bc) (NewIterator lastHashNew) [] in
  let* ho := collect_hashes (loop_fuel bc) (NewIterator (LastHash bc)) [] in
  let i := first_diff hn ho in
  let* newTxns := collect_txns (drop i hn) [] in
  let* oldTxns := collect_txns (drop i ho) [] in
  ret (newTxns, oldTxns).

(* ------------------------------------------------------------------ *)
(** ** TxnStatus *)

(** [for _, txn := range block.Txns { if txn.ID == txid { res = iter.Index;
    break } }] *)
Fixpoint find_in_block (txns : list Transaction) (txid : bytes) (index res : Z)
    : Z :=
  match txns with
  | [] => res
  | txn :: txns =>
      if bytes_eqb (ID txn) txid then index else find_in_block txns txid index res
  end.

Fixpoint txn_status_loop (fuel : nat) (iter : ChainIterator) (txid : bytes)
    (res : Z) : M Z :=
  match fuel with
  | O => fatal
  | S fuel =>
      let* r := Next iter in
      let '(block, end_, iter) := r in
      if end_ then ret res else
      let res := find_in_block (Txns block) txid (Index iter) res in
      if negb (res =? -1) then ret res
      else txn_status_loop fuel iter txid res
  end.

(** [TxnStatus(txid)] *)
Definition TxnStatus (txid : bytes) : M Z :=
  let* bc := get_bc in
  txn_status_loop (loop_fuel bc) (NewIterator (LastHash bc)) txid (-1).

(* ------------------------------------------------------------------ *)
(** ** FindUnspentTransactions and FindSpendableOutputs

    The maps of the source are keyed by [hex.EncodeToString(tx.ID)]; hex
    encoding is injective, so they are keyed by the id itself here. *)

(** [for outIdx, out := range tx.Outputs { if spentTXOs[txID] != nil {
       ... continue Outputs ... }; if out.IsLockedWithKey(pubKeyHash) {
       unspentTxs = append(unspentTxs, *tx) } }] *)
Fixpoint scan_outputs (spentTXOs : gmap bytes (list Z)) (pubKeyHash : bytes)
    (tx : Transaction) (outs : list TxOutput) (outIdx : Z)
    (unspentTxs : list Transaction) : list Transaction :=
  match outs with
  | [] => unspentTxs
  | out :: outs =>
      let is_spent := match spentTXOs !! ID tx with
                      | Some spent => existsb (Z.eqb outIdx) spent
                      | None => false
                      end in
      if is_spent
      then scan_outputs spentTXOs pubKeyHash tx outs (outIdx + 1) unspentTxs
      else scan_outputs spentTXOs pubKeyHash tx outs (outIdx + 1)
             (if IsLockedWithKey out pubKeyHash
              then unspentTxs ++ [tx] else unspentTxs)
  end.

Definition scan_txns (spentTXOs : gmap bytes (list Z)) (pubKeyHash : bytes)
    (txns : list Transaction) (unspentTxs : list Transaction)
    : list Transaction :=
  fold_left (fun acc tx => scan_outputs spentTXOs pubKeyHash tx (Outputs tx) 0 acc)
    txns unspentTxs.

(** [for { block, _ := iter.Next(); ...; if len(block.PrevHash) == 0 {
       break } }] *)
Fixpoint unspent_loop (fuel : nat) (spentTXOs : gmap bytes (list Z))
    (pubKeyHash : bytes) (iter : ChainIterator) (unspentTxs : list Transaction)
    : M (list Transaction) :=
  match fuel with
  | O => fatal
  | S fuel =>
      let* r := Next iter in
      let '(block, _, iter) := r in
      let unspentTxs := scan_txns spentTXOs pubKeyHash (Txns block) unspentTxs in
      if bool_decide (PrevHash block = []) then ret unspentTxs
      else unspent_loop fuel spentTXOs pubKeyHash iter unspentTxs
  end.

(** [FindUnspentTransactions(pubKeyHash)]: [spentTXOs] is created empty
    and nothing in the function writes to it. *)
Definition FindUnspentTransactions (pubKeyHash : bytes) : M (list Transaction) :=
  let* bc := get_bc in
  let spentTXOs : gmap bytes (list Z) := ∅ in
  unspent_loop (loop_fuel bc) spentTXOs pubKeyHash (NewIterator (LastHash bc)) [].

(** Go's [int] is 64 bits wide; [accumulated += out.Value] wraps around
    (two's complement). *)
Definition int_wrap (z : Z) : Z := (z + 2 ^ 63) mod 2 ^ 64 - 2 ^ 63.

(** [unspentOuts[txID]], [nil] when absent. *)
Definition outs_of (unspentOuts : gmap bytes (list Z)) (txID : bytes) : list Z :=
  default [] (unspentOuts !! txID).

(** [for outIdx, out := range tx.Outputs { if out.IsLockedWithKey(pubKeyHash)
       && accumulated < amount { accumulated += out.Value; append outIdx;
       if accumulated >= amount { break Work } } }]; the boolean is the
    [break Work]. *)
Fixpoint spend_outputs (pubKeyHash : bytes) (amount : Z) (txID : bytes)
    (outs : list TxOutput) (outIdx : Z) (accumulated : Z)
    (unspentOuts : gmap bytes (list Z)) : Z * gmap bytes (list Z) * bool :=
  match outs with
  | [] => (accumulated, unspentOuts, false)
  | out :: outs =>
      if (IsLockedWithKey out pubKeyHash && (accumulated <? amount))%bool then
        let accumulated := int_wrap (accumulated + Value out) in
        let unspentOuts :=
          <[ txID := outs_of unspentOuts txID ++ [outIdx] ]> unspentOuts in
        if amount <=? accumulated then (accumulated, unspentOuts, true)
        else spend_outputs pubKeyHash amount txID outs (outIdx + 1)
               accumulated unspentOuts
      else spend_outputs pubKeyHash amount txID outs (outIdx + 1)
             accumulated unspentOuts
  end.

(** [Work: for _, tx := range unspentTxs { ... }] *)
Fixpoint spend_txs (pubKeyHash : bytes) (amount : Z) (txs : list Transaction)
    (accumulated : Z) (unspentOuts : gmap bytes (list Z))
    : Z * gmap bytes (list Z) :=
  match txs with
  | [] => (accumulated, unspentOuts)
  | tx :: txs =>
      let '(accumulated, unspentOuts, brk) :=
        spend_outputs pubKeyHash amount (ID tx) (Outputs tx) 0 accumulated
          unspentOuts in
      if brk then (accumulated, unspentOuts)
      else spend_txs pubKeyHash amount txs accumulated unspentOuts
  end.

(** [FindSpendableOutputs(pubKeyHash, amount)] *)
Definition FindSpendableOutputs (pubKeyHash : bytes) (amount : Z)
    : M (Z * gmap bytes (list Z)) :=
  let* unspentTxs := FindUnspentTransactions pubKeyHash in
  ret (spend_txs pubKeyHash amount unspentTxs 0 ∅).

(* ------------------------------------------------------------------ *)
(** ** Chains, store invariants and reachable states *)

(** [walk st h pre g]: following [prev_hash] links from [h] through the
    store visits the non-genesis blocks [pre] (tip first) and ends at the
    genesis block [g]; the chain of [h] is [pre ++ [g]]. *)
Inductive walk (st : gmap bytes Block) : bytes -> list Block -> Block -> Prop :=
| walk_genesis h g :
    st !! h = Some g -> BlockNum g = 0 -> walk st h [] g
| walk_step h b pre g :
    st !! h = Some b -> BlockNum b <> 0 -> walk st (PrevHash b) pre g ->
    walk st h (b :: pre) g.

(** The data-model invariants of a chain state: blocks are stored under
    their own hash, there is one genesis block (no parent, no
    transactions), the store is closed under parent links, the tip is
    stored, and every stored hash leads back to genesis. *)
Record Inv (bc : BlockChain) : Prop := {
  inv_keys : forall h b, blocks bc !! h = Some b -> Hash b = h;
  inv_genesis : exists gh, forall h b, blocks bc !! h = Some b ->
      BlockNum b = 0 -> h = gh /\ PrevHash b = [] /\ Txns b = [];
  inv_parent : forall h b, blocks bc !! h = Some b -> BlockNum b <> 0 ->
      PrevHash b <> [] /\ is_Some (blocks bc !! PrevHash b);
  inv_tip : is_Some (blocks bc !! LastHash bc);
  inv_chain : forall h, is_Some (blocks bc !! h) ->
      exists pre g, walk (blocks bc) h pre g
                    /\ (length pre < size (blocks bc))%nat
}.

(** States produced by [Init] on a fresh database followed by [Put]s. *)
Inductive reachable `{Hasher} : BlockChain -> Prop :=
| reach_init nonce hash bc :
    Init false nonce hash = Some bc -> reachable bc
| reach_put bc b owned r bc' :
    reachable bc -> Put b owned bc = Some (r, bc') -> reachable bc'.

(** Block [b] contains a transaction with id [txid]. *)
Definition contains_txn (b : Block) (txid : bytes) : bool :=
  existsb (fun txn => bytes_eqb (ID txn) txid) (Txns b).

(** Executable chain walk, tip first, genesis included. *)
Fixpoint chain_blocks (fuel : nat) (st : gmap bytes Block) (h : bytes)
    : option (list Block) :=
  match fuel with
  | O => None
  | S fuel =>
      match st !! h with
      | None => None
      | Some b =>
          if BlockNum b =? 0 then Some [b]
          else match chain_blocks fuel st (PrevHash b) with
               | Some bs => Some (b :: bs)
               | None => None
               end
      end
  end.

(** Outputs numbered from [i]: [for outIdx, out := range outs]. *)
Fixpoint enumerate (i : Z) (outs : list TxOutput) : list (Z * TxOutput) :=
  match outs with
  | [] => []
  | o :: outs => (i, o) :: enumerate (i + 1) outs
  end.

(** The spec's [FindUnspentTransactions]: one pass from tip to genesis
    keeping the set [spent] of [(tx_id, out_idx)] pairs named by the
    inputs seen so far; a transaction is emitted when one of its outputs
    locked to [pkh] is not in [spent]. *)
Definition out_is_spent (spent : list (bytes * Z)) (txid : bytes) (idx : Z) : bool :=
  existsb (fun '(t, i) => bytes_eqb t txid && (i =? idx))%bool spent.

Definition has_unspent_locked (pkh : bytes) (spent : list (bytes * Z))
    (tx : Transaction) : bool :=
  existsb (fun '(idx, o) =>
             IsLockedWithKey o pkh && negb (out_is_spent spent (ID tx) idx))%bool
    (enumerate 0 (Outputs tx)).

Fixpoint unspent_spec_txns (pkh : bytes) (txns : list Transaction)
    (spent : list (bytes * Z)) : list Transaction * list (bytes * Z) :=
  match txns with
  | [] => ([], spent)
  | tx :: txns =>
      let emitted := if has_unspent_locked pkh spent tx then [tx] else [] in
      let spent := map (fun i => (in_ID i, in_Out i)) (Inputs tx) ++ spent in
      let '(rest, spent) := unspent_spec_txns pkh txns spent in
      (emitted ++ rest, spent)
  end.

Fixpoint unspent_spec_blocks (pkh : bytes) (bs : list Block)
    (spent : list (bytes * Z)) : list Transaction :=
  match bs with
  | [] => []
  | b :: bs =>
      let '(emitted, spent) := unspent_spec_txns pkh (Txns b) spent in
      emitted ++ unspent_spec_blocks pkh bs spent
  end.

Definition FindUnspentTransactions_spec (pkh : bytes) (bc : BlockChain)
    : option (list Transaction) :=
  match chain_blocks (loop_fuel bc) (blocks bc) (LastHash bc) with
  | Some bs => Some (unspent_spec_blocks pkh bs [])
  | None => None
  end.

(** The outputs locked to [pkh] among [outs] numbered from [i], as
    [(tx_id, out_idx, value)]. *)
Definition items_from (pkh : bytes) (txID : bytes) (i : Z) (outs : list TxOutput)
    : list (bytes * Z * Z) :=
  map (fun '(idx, o) => (txID, idx, Value o))
    (List.filter (fun '(_, o) => IsLockedWithKey o pkh) (enumerate i outs)).

(** The outputs locked to [pkh] of a list of transactions, in iteration
    order. *)
Definition locked_items (pkh : bytes) (txs : list Transaction)
    : list (bytes * Z * Z) :=
  concat (map (fun tx => items_from pkh (ID tx) 0 (Outputs tx)) txs).

Definition items_value (l : list (bytes * Z * Z)) : Z :=
  fold_right (fun '(_, _, v) s => v + s) 0 l.

(** The map [tx_id -> [output indices]] recording the items [l]. *)
Definition group_items (m : gmap bytes (list Z)) (l : list (bytes * Z * Z))
    : gmap bytes (list Z) :=
  fold_left (fun m '(txID, idx, _) => <[ txID := outs_of m txID ++ [idx] ]> m) l m.

(** One pass over locked outputs: while the running total is below
    [amount], add the next value (in Go's 64-bit [int], see [int_wrap])
    and record its index; the boolean says the total reached [amount]. *)
Fixpoint scan_items (amount : Z) (l : list (bytes * Z * Z)) (accumulated : Z)
    (unspentOuts : gmap bytes (list Z)) : Z * gmap bytes (list Z) * bool :=
  match l with
  | [] => (accumulated, unspentOuts, false)
  | (txID, idx, v) :: l =>
      if accumulated <? amount then
        let accumulated := int_wrap (accumulated + v) in
        let unspentOuts :=
          <[ txID := outs_of unspentOuts txID ++ [idx] ]> unspentOuts in
        if amount <=? accumulated then (accumulated, unspentOuts, true)
        else scan_items amount l accumulated unspentOuts
      else scan_items amount l accumulated unspentOuts
  end.

(* ------------------------------------------------------------------ *)
(** ** Database keys *)

Definition LastHashKey : bytes := String.list_byte_of_string "LastHash".
Definition BlockKeyPrefix : bytes := String.list_byte_of_string "block-".

(** [DBKeyForBlock(blockHash)]: [bytes.Join([prefix, blockHash], "")]. *)
Definition DBKeyForBlock (blockHash : bytes) : bytes := BlockKeyPrefix ++ blockHash.

(* ------------------------------------------------------------------ *)
(** ** FindTransaction, SignTransaction, VerifyTransaction *)

(** [for _, tx := range block.Txns { if tx.ID == ID { return *tx, nil } }] *)
Fixpoint find_txn (txns : list Transaction) (id : bytes) : option Transaction :=
  match txns with
  | [] => None
  | tx :: txns => if bytes_eqb (ID tx) id then Some tx else find_txn txns id
  end.

Fixpoint find_transaction_loop (fuel : nat) (iter : ChainIterator) (id : bytes)
    : M (Transaction + string) :=
  match fuel with
  | O => fatal
  | S fuel =>
      let* r := Next iter in
      let '(block, _, iter) := r in
      match find_txn (Txns block) id with
      | Some tx => ret (inl tx)
      | None =>
          if bool_decide (PrevHash block = [])
          then ret (inr "Transaction does not exist")
          else find_transaction_loop fuel iter id
      end
  end.

(** [FindTransaction(ID)]: the transaction, or the error. *)
Definition FindTransaction (id : bytes) : M (Transaction + string) :=
  let* bc := get_bc in
  find_transaction_loop (loop_fuel bc) (NewIterator (LastHash bc)) id.

(** [tx.Sign] and [tx.Verify] (transaction.go, not under src/).
    Modelled from the spec: signing with a private key and verifying both
    take the transaction and the map of the prior transactions its inputs
    reference; they are the ECDSA collaborators of the core. *)
Class TxCrypto := {
  PrivateKey : Type;
  tx_Sign : PrivateKey -> gmap bytes Transaction -> Transaction -> Transaction;
  tx_Verify : Transaction -> gmap bytes Transaction -> bool
}.

(** [for _, in := range tx.Inputs { prevTX, err := bc.FindTransaction(in.ID);
       if err != nil { log.Panic(err) };
       prevTXs[hex.EncodeToString(prevTX.ID)] = prevTX }] *)
Fixpoint collect_prevTXs (ins : list TxInput) (prevTXs : gmap bytes Transaction)
    : M (gmap bytes Transaction) :=
  match ins with
  | [] => ret prevTXs
  | i :: ins =>
      let* r := FindTransaction (in_ID i) in
      match r with
      | inl prevTX => collect_prevTXs ins (<[ ID prevTX := prevTX ]> prevTXs)
      | inr _ => fatal
      end
  end.

(** [SignTransaction(tx, privKey)]: [tx] is signed in place; the signed
    transaction is the result here. *)
Definition SignTransaction `{TxCrypto} (tx : Transaction) (privKey : PrivateKey)
    : M Transaction :=
  let* prevTXs := collect_prevTXs (Inputs tx) ∅ in
  ret (tx_Sign privKey prevTXs tx).

(** [VerifyTransaction(tx)]; the trailing [return false] is unreachable. *)
Definition VerifyTransaction `{TxCrypto} (tx : Transaction) : M bool :=
  let* prevTXs := collect_prevTXs (Inputs tx) ∅ in
  ret (tx_Verify tx prevTXs).

(** The first transaction with id [id] on a list of blocks, tip first. *)
Fixpoint txn_on_chain (bs : list Block) (id : bytes) : option Transaction :=
  match bs with
  | [] => None
  | b :: bs =>
      match find_txn (Txns b) id with
      | Some tx => Some tx
      | None => txn_on_chain bs id
      end
  end.

(** Depth of the first block of [bs] containing [txid], -1 if none. *)
Fixpoint depth_in (bs : list Block) (txid : bytes) : Z :=
  match bs with
  | [] => -1
  | b :: bs =>
      if contains_txn b txid then 0
      else let d := depth_in bs txid in if d =? -1 then -1 else d + 1
  end.

(* ------------------------------------------------------------------ *)
(** ** evlib.go: miner list and voter bookkeeping of the client *)

(** [sliceMinerList(mAddr, minerList)]: drop the first entry equal to
    [mAddr]. *)
Definition sliceMinerList (mAddr : string) (minerList : list string)
    : list string :=
  match list_find (fun v => mAddr = v) minerList with
  | Some (i, _) => take i minerList ++ drop (S i) minerList
  | None => minerList
  end.

(** [rand.Intn(n)]: [None] is Go's panic for [n <= 0]; otherwise the
    possible results [0 .. n-1]. *)
Definition Intn (n : Z) : option (list Z) :=
  if n <=? 0 then None else Some (map Z.of_nat (seq 0 (Z.to_nat n))).

(** The miners the retry loop of [Vote] and [submitTxn] may switch to:
    [d.MinerAddrList[rand.Intn(len(d.MinerAddrList)-1)]]. *)
Definition next_miner_choices (minerList : list string) : option (list string) :=
  match Intn (Z.of_nat (length minerList) - 1) with
  | None => None
  | Some idxs => Some (omap (fun i => minerList !! Z.to_nat i) idxs)
  end.

Record VoterNameID := { voter_Name : string; voter_ID : string }.

(** [findVoterExist(from, to)] over the global [voterInfo]. *)
Definition findVoterExist (voterInfo : list VoterNameID) (from to : string) : bool :=
  existsb (fun v => bool_decide (voter_Name v = from) && bool_decide (voter_ID v = to))%bool
    voterInfo.

(** The voter bookkeeping at the start of [Vote(from, fromID, to)]: the
    new [voterInfo] and whether a wallet was created. *)
Definition vote_register (voterInfo : list VoterNameID) (from fromID to : string)
    : list VoterNameID * bool :=
  if negb (findVoterExist voterInfo from fromID)
  then (voterInfo ++ [{| voter_Name := from; voter_ID := to |}], true)
  else (voterInfo, false).

(* ------------------------------------------------------------------ *)
(** ** A concrete chain: scenarios S2 to S5 of the spec

    Blocks are admitted as owned, so the proof of work is skipped and any
    hasher will do. [T2] in [B2] spends output 0 of [T1] in [B1];
    [T1b] has two outputs locked to [alice]. *)
Module Scenario.

#[export] Instance pow : Hasher :=
  {| digest := Hash; digest_value := fun _ => 0; target := 1 |}.

Definition bs (s : string) : bytes := String.list_byte_of_string s.

Definition ballot : Ballot :=
  {| VoterName := "v"; VoterStudentID := "1"; VoterCandidate := "c" |}.

Definition tx (id : string) (ins : list TxInput) (outs : list TxOutput)
    : Transaction :=
  {| Data := ballot; ID := bs id; Inputs := ins; Outputs := outs;
     Signature := []; PublicKey := [] |}.

Definition blk (prev : string) (n : Z) (txs : list Transaction) (h : string)
    : Block :=
  {| PrevHash := bs prev; BlockNum := n; Nonce := 0; Txns := txs;
     MinerID := "m"; Hash := bs h |}.

Definition alice : bytes := bs "alice".
Definition bob : bytes := bs "bob".

Definition T1 := tx "t1" [] [{| Value := 10; PubKeyHash := alice |}].
Definition T1b := tx "t1b" []
  [{| Value := 4; PubKeyHash := alice |}; {| Value := 4; PubKeyHash := alice |}].
Definition T2 := tx "t2"
  [{| in_ID := bs "t1"; in_Out := 0; in_Signature := []; in_PubKey := [] |}]
  [{| Value := 10; PubKeyHash := bob |}].
Definition T3 := tx "t3" [] [].
Definition U2 := tx "u2" [] [].
Definition U3 := tx "u3" [] [].
Definition U4 := tx "u4" [] [].

Definition B1 := blk "G" 1 [T1b; T1] "B1".
Definition B2 := blk "B1" 2 [T2] "B2".
Definition B3 := blk "B2" 3 [T3] "B3".
Definition B2' := blk "B1" 2 [U2] "B2'".
Definition B3' := blk "B2'" 3 [U3] "B3'".
Definition B4' := blk "B3'" 4 [U4] "B4'".

Definition empty_chain : BlockChain := {| LastHash := []; blocks := ∅ |}.

Definition after {A} (r : option (A * BlockChain)) : BlockChain :=
  match r with Some (_, bc) => bc | None => empty_chain end.

Definition st0 : BlockChain :=
  match Init false 0 (bs "G") with Some bc => bc | None => empty_chain end.
Definition st1 := after (Put B1 true st0).
Definition st2 := after (Put B2 true st1).
Definition st3 := after (Put B3 true st2).
Definition st4 := after (Put B2' true st3).
Definition st5 := after (Put B3' true st4).
Definition st6 := after (Put B4' true st5).

(** Two transactions whose locked values overflow Go's [int] when added:
    [TV5] (value 5) sits in the tip block above [TVmax] (value 2^63 - 1). *)
Definition TV5 := tx "v5" [] [{| Value := 5; PubKeyHash := alice |}].
Definition TVmax := tx "vmax" [] [{| Value := 2 ^ 63 - 1; PubKeyHash := alice |}].
Definition BV1 := blk "G" 1 [TVmax] "BV1".
Definition BV2 := blk "BV1" 2 [TV5] "BV2".
Definition stv1 := after (Put BV1 true st0).
Definition stv2 := after (Put BV2 true stv1).

(** A signer that stores the key as the signature, and a verifier that
    asks for the transaction of every input. *)
#[export] Instance crypto : TxCrypto := {|
  PrivateKey := bytes;
  tx_Sign := fun k _ t =>
    {| Data := Data t; ID := ID t; Inputs := Inputs t; Outputs := Outputs t;
       Signature := k; PublicKey := PublicKey t |};
  tx_Verify := fun t prevTXs =>
    forallb (fun i => bool_decide (is_Some (prevTXs !! in_ID i))) (Inputs t)
|}.

End Scenario.

(* ================================================================== *)
(** * Proofs *)

(** The state after a successful [Put]. *)
Definition put_state (bc : BlockChain) (block : Block) : BlockChain :=
  {| LastHash := if bytes_eqb (PrevHash block) (LastHash bc)
                 then Hash block else LastHash bc;
     blocks := <[ Hash block := block ]> (blocks bc) |}.

(** The rejection test of [Put], steps 1 to 4. *)
Definition put_rejects `{Hasher} (bc : BlockChain) (block : Block) (owned : bool)
    : Prop :=
  PrevHash block = [] \/ BlockNum block = 0 \/ Hash block = [] \/
  MinerID block = "" \/ blocks bc !! PrevHash block = None \/
  is_Some (blocks bc !! Hash block) \/ (owned = false /\ Validate block = false).

Section PutProofs.
Context `{Hasher}.

Lemma Put_unfold (block : Block) (owned : bool) (bc : BlockChain) :
  Put block owned bc =
  if (bool_decide (PrevHash block = []) || (BlockNum block =? 0)
      || bool_decide (Hash block = []) || bool_decide (MinerID block = ""))%bool
  then Some (false, bc)
  else if bool_decide (is_Some (blocks bc !! PrevHash block)) then
    if bool_decide (is_Some (blocks bc !! Hash block)) then Some (false, bc)
    else if (negb owned && negb (Validate block))%bool then Some (false, bc)
    else Some (true, put_state bc block)
  else Some (false, bc).
Proof.
  unfold Put, bind, ret, Exist, get_bc, put_bc, put_state.
  destruct (_ || _)%bool; [reflexivity|].
  destruct (bool_decide (is_Some (blocks bc !! PrevHash block))); simpl;
    [|reflexivity].
  destruct (bool_decide (is_Some (blocks bc !! Hash block))); [reflexivity|].
  destruct (negb owned && negb (Validate block))%bool; [reflexivity|].
  destruct (bytes_eqb (PrevHash block) (LastHash bc)); reflexivity.
Qed.

Lemma Put_cases (block : Block) (owned : bool) (bc : BlockChain) :
  (put_rejects bc block owned /\ Put block owned bc = Some (false, bc)) \/
  (~ put_rejects bc block owned /\
   Put block owned bc = Some (true, put_state bc block)).
Proof.
  rewrite Put_unfold. unfold put_rejects.
  destruct (bool_decide (PrevHash block = [])) eqn:E1;
    [apply bool_decide_eq_true in E1; left; tauto|apply bool_decide_eq_false in E1].
  destruct (BlockNum block =? 0) eqn:E2;
    [apply Z.eqb_eq in E2; left; simpl; tauto|apply Z.eqb_neq in E2].
  destruct (bool_decide (Hash block = [])) eqn:E3;
    [apply bool_decide_eq_true in E3; left; simpl; tauto
    |apply bool_decide_eq_false in E3].
  destruct (bool_decide (MinerID block = "")) eqn:E4;
    [apply bool_decide_eq_true in E4; left; simpl; tauto
    |apply bool_decide_eq_false in E4].
  simpl.
  destruct (bool_decide (is_Some (blocks bc !! PrevHash block))) eqn:E5;
    [apply bool_decide_eq_true in E5|apply bool_decide_eq_false in E5].
  2:{ left. split; [|reflexivity]. right; right; right; right; left.
      destruct (blocks bc !! PrevHash block); [exfalso; apply E5; eauto|done]. }
  destruct (bool_decide (is_Some (blocks bc !! Hash block))) eqn:E6;
    [apply bool_decide_eq_true in E6; left; split; [tauto|reflexivity]
    |apply bool_decide_eq_false in E6].
  destruct owned; simpl.
  - right. split; [|reflexivity].
    intros [?|[?|[?|[?|[Hn|[?|[? ?]]]]]]]; try tauto; try discriminate.
    rewrite Hn in E5. destruct E5 as [? ?]; discriminate.
  - destruct (Validate block) eqn:E7; simpl.
    + right. split; [|reflexivity].
      intros [?|[?|[?|[?|[Hn|[?|[? ?]]]]]]]; try tauto; try congruence.
      rewrite Hn in E5. destruct E5 as [? ?]; discriminate.
    + left. split; [tauto|reflexivity].
Qed.

End PutProofs.

Section PutClaims.
Context `{Hasher}.

(** C3: a rejected [Put] leaves the store and [last_hash] as they were;
    a block already stored is rejected, in particular on a second [Put]
    of a block the first [Put] admitted. *)
Theorem Put_reject_unchanged (block : Block) (owned : bool) (bc : BlockChain) :
  exists r bc', Put block owned bc = Some (r, bc') /\
    (r = false -> blocks bc' = blocks bc /\ LastHash bc' = LastHash bc) /\
    (is_Some (blocks bc !! Hash block) -> r = false) /\
    (r = true -> forall owned', Put block owned' bc' = Some (false, bc')).
Proof.
  destruct (Put_cases block owned bc) as [[Hr ->]|[Hr ->]].
  - exists false, bc. repeat split; try reflexivity; discriminate.
  - exists true, (put_state bc block). split; [reflexivity|]. split; [discriminate|].
    split.
    + intros Hs. exfalso. apply Hr. do 5 right. left. exact Hs.
    + intros _ owned'.
      destruct (Put_cases block owned' (put_state bc block)) as [[_ E]|[Hr' _]];
        [exact E|].
      exfalso. apply Hr'. do 5 right. left. simpl.
      rewrite lookup_insert_eq. eauto.
Qed.

(** C4: [Put] rejects exactly on missing fields, genesis height, unknown
    parent, duplicate hash, or (for a block not owned) failed proof of
    work; otherwise it stores the block and returns [true]. *)
Theorem Put_admission (block : Block) (owned : bool) (bc : BlockChain) :
  exists r bc', Put block owned bc = Some (r, bc') /\
    (r = false <->
       PrevHash block = [] \/ BlockNum block = 0 \/ Hash block = [] \/
       MinerID block = "" \/ blocks bc !! PrevHash block = None \/
       is_Some (blocks bc !! Hash block) \/
       (owned = false /\ Validate block = false)) /\
    (r = true -> blocks bc' = <[ Hash block := block ]> (blocks bc)).
Proof.
  destruct (Put_cases block owned bc) as [[Hr ->]|[Hr ->]].
  - exists false, bc. split; [reflexivity|]. split; [tauto|discriminate].
  - exists true, (put_state bc block). split; [reflexivity|].
    split; [split; [discriminate|intros R; exfalso; exact (Hr R)]|].
    intros _. reflexivity.
Qed.

(** C5: an admitted block becomes the tip exactly when its parent was
    the tip; the store only gains the new block. *)
Theorem Put_tip_update (block : Block) (owned : bool) (bc bc' : BlockChain) :
  Put block owned bc = Some (true, bc') ->
  LastHash bc' = (if decide (PrevHash block = LastHash bc)
                  then Hash block else LastHash bc) /\
  blocks bc' = <[ Hash block := block ]> (blocks bc).
Proof.
  destruct (Put_cases block owned bc) as [[_ ->]|[_ ->]]; [discriminate|].
  intros E. injection E as <-. simpl. split; [|reflexivity].
  unfold bytes_eqb. destruct (decide _) as [e|n].
  - rewrite bool_decide_eq_true_2 by exact e. reflexivity.
  - rewrite bool_decide_eq_false_2 by exact n. reflexivity.
Qed.

End PutClaims.

(** ** The store invariants along [Init] and [Put] *)

Lemma walk_insert_fresh (st : gmap bytes Block) (k : bytes) (v : Block)
    (h : bytes) (pre : list Block) (g : Block) :
  walk st h pre g -> st !! k = None -> walk (<[k := v]> st) h pre g.
Proof.
  intros W Hk. induction W as [h g Hg Hn|h b pre g Hb Hn W IH].
  - apply walk_genesis; [|exact Hn].
    rewrite lookup_insert_ne; [exact Hg|congruence].
  - apply walk_step; [|exact Hn|exact IH].
    rewrite lookup_insert_ne; [exact Hb|congruence].
Qed.

Lemma Inv_Init (nonce : Z) (hash : bytes) (bc : BlockChain) :
  Init false nonce hash = Some bc -> Inv bc.
Proof.
  unfold Init. intros E. injection E as <-. simpl. constructor; simpl.
  - intros h b Hb. apply lookup_singleton_Some in Hb as [<- <-]. reflexivity.
  - exists hash. intros h b Hb _.
    apply lookup_singleton_Some in Hb as [<- <-]. simpl. auto.
  - intros h b Hb Hn. apply lookup_singleton_Some in Hb as [<- <-].
    simpl in Hn. congruence.
  - rewrite lookup_singleton_eq. eauto.
  - intros h [b Hb]. pose proof Hb as Hb'.
    apply lookup_singleton_Some in Hb' as [<- <-].
    exists [], (Genesis nonce hash). split.
    + apply walk_genesis; [exact Hb|reflexivity].
    + rewrite map_size_singleton. simpl. lia.
Qed.

Lemma Inv_put_state `{Hasher} (bc : BlockChain) (block : Block) (owned : bool) :
  Inv bc -> ~ put_rejects bc block owned -> Inv (put_state bc block).
Proof.
  intros I Hr. unfold put_rejects in Hr.
  assert (Hp : PrevHash block <> []) by tauto.
  assert (Hn : BlockNum block <> 0) by tauto.
  assert (Hpar : is_Some (blocks bc !! PrevHash block)).
  { destruct (blocks bc !! PrevHash block) eqn:E; [eauto|tauto]. }
  assert (Hfresh : blocks bc !! Hash block = None).
  { destruct (blocks bc !! Hash block) eqn:E; [|reflexivity].
    exfalso. apply Hr. do 5 right. left. eauto. }
  destruct I as [Ik [gh Ig] Ip It Ic].
  constructor; simpl.
  - intros h b Hb. apply lookup_insert_Some in Hb as [[<- <-]|[_ Hb]];
      [reflexivity|eauto].
  - exists gh. intros h b Hb Hb0.
    apply lookup_insert_Some in Hb as [[<- <-]|[_ Hb]]; [congruence|eauto].
  - intros h b Hb Hb0.
    apply lookup_insert_Some in Hb as [[<- <-]|[_ Hb]].
    + split; [exact Hp|]. destruct Hpar as [p Hpar].
      rewrite lookup_insert_ne; [eauto|congruence].
    + destruct (Ip h b Hb Hb0) as [Hp' [p Hpar']]. split; [exact Hp'|].
      rewrite lookup_insert_ne; [eauto|congruence].
  - destruct (bytes_eqb (PrevHash block) (LastHash bc)).
    + rewrite lookup_insert_eq. eauto.
    + destruct It as [t Ht]. rewrite lookup_insert_ne; [eauto|congruence].
  - rewrite map_size_insert_None by exact Hfresh.
    intros h Hh. destruct (decide (h = Hash block)) as [->|Hne].
    + destruct (Ic _ Hpar) as (pre & g & W & Hl).
      exists (block :: pre), g. split.
      * apply walk_step; [apply lookup_insert_eq|exact Hn|].
        apply walk_insert_fresh; assumption.
      * simpl. lia.
    + rewrite lookup_insert_ne in Hh by congruence.
      destruct (Ic _ Hh) as (pre & g & W & Hl).
      exists pre, g. split; [apply walk_insert_fresh; assumption|lia].
Qed.

Lemma reachable_Inv `{Hasher} (bc : BlockChain) : reachable bc -> Inv bc.
Proof.
  induction 1 as [nonce hash bc Hi|bc b owned r bc' R IH Hput].
  - exact (Inv_Init nonce hash bc Hi).
  - destruct (Put_cases b owned bc) as [[_ E]|[Hr E]]; rewrite E in Hput;
      injection Hput as <- <-; [exact IH|].
    exact (Inv_put_state bc b owned IH Hr).
Qed.

(** C6: in every state reached by [Init] and [Put]s, every stored block
    is genesis or has a stored parent (P1), and the tip is stored (P2). *)
Theorem reachable_P1_P2 `{Hasher} (bc : BlockChain) :
  reachable bc ->
  (forall h b, blocks bc !! h = Some b ->
     (BlockNum b = 0 /\ PrevHash b = []) \/ is_Some (blocks bc !! PrevHash b)) /\
  is_Some (blocks bc !! LastHash bc).
Proof.
  intros R. destruct (reachable_Inv bc R) as [Ik [gh Ig] Ip It Ic].
  split; [|exact It].
  intros h b Hb. destruct (decide (BlockNum b = 0)) as [E|E].
  - left. destruct (Ig h b Hb E) as (_ & Hp & _). auto.
  - right. apply (Ip h b Hb E).
Qed.

(** ** Walking a chain with [ChainIterator] *)

Lemma Next_at (bc : BlockChain) (iter : ChainIterator) (b : Block) :
  blocks bc !! CurrentHash iter = Some b ->
  Next iter bc =
  Some ((b, BlockNum b =? 0,
         {| it_LastHash := it_LastHash iter; CurrentHash := PrevHash b;
            Index := Index iter + 1 |}), bc).
Proof. intros Hb. unfold Next, bind, Get, ret. rewrite Hb. reflexivity. Qed.

Lemma walk_end (st : gmap bytes Block) (h : bytes) (pre : list Block) (g : Block) :
  walk st h pre g -> exists k, st !! k = Some g /\ BlockNum g = 0.
Proof. induction 1; eauto. Qed.

Lemma walk_stored (bc : BlockChain) (h : bytes) (pre : list Block) (g : Block) :
  Inv bc -> walk (blocks bc) h pre g ->
  Forall (fun b => blocks bc !! Hash b = Some b /\ BlockNum b <> 0) pre.
Proof.
  intros I W. induction W as [|h b pre g Hb Hn W IH]; constructor; [|exact IH].
  rewrite (inv_keys bc I h b Hb). auto.
Qed.

(** Under the invariants the walks from any two stored hashes end at the
    same genesis block. *)
Lemma walk_same_genesis (bc : BlockChain) h1 h2 pre1 pre2 g1 g2 :
  Inv bc -> walk (blocks bc) h1 pre1 g1 -> walk (blocks bc) h2 pre2 g2 ->
  g1 = g2 /\ Txns g1 = [] /\ PrevHash g1 = [].
Proof.
  intros I W1 W2.
  destruct (walk_end _ _ _ _ W1) as (k1 & Hk1 & Hg1).
  destruct (walk_end _ _ _ _ W2) as (k2 & Hk2 & Hg2).
  destruct (inv_genesis bc I) as [gh Ig].
  destruct (Ig _ _ Hk1 Hg1) as (-> & Hp & Ht).
  destruct (Ig _ _ Hk2 Hg2) as (-> & _ & _).
  rewrite Hk1 in Hk2. injection Hk2 as ->. auto.
Qed.

Lemma collect_hashes_walk (bc : BlockChain) (h : bytes) (pre : list Block)
    (g : Block) :
  walk (blocks bc) h pre g ->
  forall fuel iter acc, (length pre < fuel)%nat -> CurrentHash iter = h ->
  collect_hashes fuel iter acc bc = Some (rev (map Hash pre) ++ acc, bc).
Proof.
  induction 1 as [h g Hg Hn|h b pre g Hb Hn W IH];
    intros [|fuel] iter acc Hf Hc; try (simpl in Hf; lia); simpl.
  - unfold bind. rewrite (Next_at bc iter g) by congruence.
    rewrite Hn. reflexivity.
  - unfold bind. rewrite (Next_at bc iter b) by congruence.
    apply Z.eqb_neq in Hn. rewrite Hn.
    rewrite (IH fuel) by (simpl in *; lia || reflexivity).
    simpl. rewrite <- app_assoc. reflexivity.
Qed.

Lemma collect_txns_stored (bc : BlockChain) (l : list Block) :
  Forall (fun b => blocks bc !! Hash b = Some b) l ->
  forall acc, collect_txns (map Hash l) acc bc =
              Some (acc ++ concat (map Txns l), bc).
Proof.
  induction 1 as [|b l Hb Hl IH]; intros acc; simpl.
  - rewrite app_nil_r. reflexivity.
  - unfold bind, Get. rewrite Hb. rewrite IH. rewrite app_assoc. reflexivity.
Qed.

Lemma first_diff_spec (a b : list bytes) :
  let i := first_diff a b in
  (i <= length a)%nat /\ (i <= length b)%nat /\
  (forall j, (j < i)%nat -> a !! j = b !! j) /\
  (i = Nat.min (length a) (length b) \/ a !! i <> b !! i).
Proof.
  revert b. induction a as [|x a IH]; intros [|y b]; simpl.
  1-3: split; [lia|split; [lia|split; [intros j Hj; lia|left; lia]]].
  - unfold bytes_eqb. case_bool_decide as Hxy.
    + subst y. destruct (IH b) as (H1 & H2 & H3 & H4).
      split; [lia|split; [lia|split]].
      * intros [|j] Hj; [reflexivity|]. simpl. apply H3. lia.
      * destruct H4 as [->|H4]; [left; reflexivity|right; exact H4].
    + split; [lia|split; [lia|split; [intros j Hj; lia|]]].
      right. simpl. congruence.
Qed.

(** C1: for a stored [new_tip] other than the tip, [CheckoutFork] returns
    the transactions of the new and of the current chain from the first
    index at which their genesis-first hash sequences differ. *)
Theorem CheckoutFork_diff (bc : BlockChain) (new_tip : bytes) :
  Inv bc -> is_Some (blocks bc !! new_tip) -> new_tip <> LastHash bc ->
  exists preN gN preO gO (i : nat),
    walk (blocks bc) new_tip preN gN /\
    walk (blocks bc) (LastHash bc) preO gO /\
    let chainN := rev (preN ++ [gN]) in
    let chainO := rev (preO ++ [gO]) in
    let seqN := map Hash chainN in
    let seqO := map Hash chainO in
    (i <= length seqN)%nat /\ (i <= length seqO)%nat /\
    (forall j, (j < i)%nat -> seqN !! j = seqO !! j) /\
    (i = Nat.min (length seqN) (length seqO) \/ seqN !! i <> seqO !! i) /\
    CheckoutFork new_tip bc =
      Some ((concat (map Txns (drop i chainN)),
             concat (map Txns (drop i chainO))), bc).
Proof.
  intros I Hnew Hne.
  destruct (inv_chain bc I new_tip Hnew) as (preN & gN & WN & LN).
  destruct (inv_chain bc I (LastHash bc) (inv_tip bc I)) as (preO & gO & WO & LO).
  destruct (walk_same_genesis bc _ _ _ _ _ _ I WN WO) as (<- & _ & _).
  set (hn := rev (map Hash preN)). set (ho := rev (map Hash preO)).
  destruct (first_diff_spec hn ho) as (D1 & D2 & D3 & D4).
  exists preN, gN, preO, gN, (S (first_diff hn ho)).
  split; [exact WN|]. split; [exact WO|].
  cbv zeta. rewrite !rev_app_distr. simpl.
  rewrite !map_rev. fold hn ho.
  repeat split; try (simpl; lia).
  - intros [|j] Hj; [reflexivity|]. simpl. apply D3. lia.
  - destruct D4 as [->|D4]; [left; reflexivity|right; exact D4].
  - unfold CheckoutFork, bind, get_bc.
    assert (Hf : bytes_eqb new_tip (LastHash bc) = false).
    { unfold bytes_eqb. apply bool_decide_eq_false_2. exact Hne. }
    rewrite Hf.
    unfold loop_fuel.
    rewrite (collect_hashes_walk bc _ _ _ WN) by (reflexivity || lia).
    rewrite (collect_hashes_walk bc _ _ _ WO) by (reflexivity || lia).
    rewrite !app_nil_r. fold hn ho.
    unfold hn, ho. rewrite <- !map_rev, !skipn_map.
    pose proof (walk_stored bc _ _ _ I WN) as SN.
    pose proof (walk_stored bc _ _ _ I WO) as SO.
    rewrite (collect_txns_stored bc (drop _ (rev preN))).
    2:{ apply Forall_drop, Forall_rev. eapply Forall_impl; [exact SN|]. tauto. }
    rewrite (collect_txns_stored bc (drop _ (rev preO))).
    2:{ apply Forall_drop, Forall_rev. eapply Forall_impl; [exact SO|]. tauto. }
    reflexivity.
Qed.

(** ** [CheckoutFork] does not change the state *)

Lemma Next_pure (iter : ChainIterator) (bc bc' : BlockChain) x :
  Next iter bc = Some (x, bc') -> bc' = bc.
Proof.
  unfold Next, bind, Get, ret. destruct (blocks bc !! CurrentHash iter); [|discriminate].
  intros E. injection E as _ <-. reflexivity.
Qed.

Lemma collect_hashes_pure (fuel : nat) (iter : ChainIterator) (acc : list bytes)
    (bc bc' : BlockChain) x :
  collect_hashes fuel iter acc bc = Some (x, bc') -> bc' = bc.
Proof.
  revert iter acc. induction fuel as [|fuel IH]; intros iter acc; simpl;
    [discriminate|].
  unfold bind. destruct (Next iter bc) as [[[[b e] it] bc1]|] eqn:En;
    [|discriminate].
  apply Next_pure in En as ->.
  destruct e; [unfold ret; intros E; injection E as _ <-; reflexivity|].
  apply IH.
Qed.

Lemma collect_txns_pure (hs : list bytes) (acc : list Transaction)
    (bc bc' : BlockChain) x :
  collect_txns hs acc bc = Some (x, bc') -> bc' = bc.
Proof.
  revert acc. induction hs as [|h hs IH]; intros acc; simpl.
  - unfold ret. intros E. injection E as _ <-. reflexivity.
  - unfold bind, Get. destruct (blocks bc !! h); [apply IH|discriminate].
Qed.

(** C9: [CheckoutFork] leaves [last_hash] and the store unchanged, and
    on the current tip it returns two empty sequences. *)
Theorem CheckoutFork_pure (bc : BlockChain) (new_tip : bytes) :
  (forall r bc', CheckoutFork new_tip bc = Some (r, bc') -> bc' = bc) /\
  (new_tip = LastHash bc -> CheckoutFork new_tip bc = Some (([], []), bc)).
Proof.
  split.
  - intros r bc'. unfold CheckoutFork, bind, get_bc.
    destruct (bytes_eqb new_tip (LastHash bc)).
    { unfold ret. intros E. injection E as _ <-. reflexivity. }
    destruct (collect_hashes _ _ _ bc) as [[hn bc1]|] eqn:E1; [|discriminate].
    apply collect_hashes_pure in E1 as ->.
    destruct (collect_hashes _ _ _ bc) as [[ho bc2]|] eqn:E2; [|discriminate].
    apply collect_hashes_pure in E2 as ->.
    destruct (collect_txns _ _ bc) as [[nt bc3]|] eqn:E3; [|discriminate].
    apply collect_txns_pure in E3 as ->.
    destruct (collect_txns _ _ bc) as [[ot bc4]|] eqn:E4; [|discriminate].
    apply collect_txns_pure in E4 as ->.
    unfold ret. intros E. injection E as _ <-. reflexivity.
  - intros ->. unfold CheckoutFork, bind, get_bc.
    unfold bytes_eqb. rewrite bool_decide_eq_true_2 by reflexivity. reflexivity.
Qed.

(** ** [TxnStatus] *)

Lemma find_in_block_spec (txns : list Transaction) (txid : bytes) (index res : Z) :
  find_in_block txns txid index res =
  if existsb (fun txn => bytes_eqb (ID txn) txid) txns then index else res.
Proof.
  induction txns as [|t txns IH]; simpl; [reflexivity|].
  destruct (bytes_eqb (ID t) txid); [reflexivity|exact IH].
Qed.

Lemma txn_status_loop_walk (bc : BlockChain) (txid : bytes) (h : bytes)
    (pre : list Block) (g : Block) :
  walk (blocks bc) h pre g ->
  forall fuel iter, (length pre < fuel)%nat -> CurrentHash iter = h ->
  0 <= Index iter + 1 ->
  exists k, txn_status_loop fuel iter txid (-1) bc = Some (k, bc) /\
   ((k = -1 /\ forall b, b ∈ pre -> contains_txn b txid = false) \/
    (exists j b, pre !! j = Some b /\ contains_txn b txid = true /\
       (forall j' b', (j' < j)%nat -> pre !! j' = Some b' ->
          contains_txn b' txid = false) /\
       k = Index iter + 1 + Z.of_nat j)).
Proof.
  induction 1 as [h g Hg Hn|h b pre g Hb Hn W IH];
    intros [|fuel] iter Hf Hc Hi; try (simpl in Hf; lia); simpl.
  - unfold bind. rewrite (Next_at bc iter g) by congruence. rewrite Hn.
    exists (-1). split; [reflexivity|]. left. split; [reflexivity|].
    intros b Hin. apply elem_of_nil in Hin. contradiction.
  - unfold bind. rewrite (Next_at bc iter b) by congruence.
    apply Z.eqb_neq in Hn. rewrite Hn. simpl.
    rewrite find_in_block_spec. fold (contains_txn b txid).
    destruct (contains_txn b txid) eqn:Ec.
    + assert (E : (Index iter + 1 =? -1) = false) by (apply Z.eqb_neq; lia).
      rewrite E. simpl. eexists. split; [reflexivity|]. right.
      exists 0%nat, b. split; [reflexivity|]. split; [exact Ec|].
      split; [intros j' b' Hj'; lia|lia].
    + simpl. simpl in Hf.
      destruct (IH fuel {| it_LastHash := it_LastHash iter;
                           CurrentHash := PrevHash b;
                           Index := Index iter + 1 |}) as (k & Hk & Hr);
        simpl; try lia; try reflexivity.
      exists k. split; [exact Hk|].
      destruct Hr as [[-> Hall]|(j & b' & Hj & Hc' & Hmin & ->)].
      * left. split; [reflexivity|]. intros b0 Hin.
        apply elem_of_cons in Hin as [->|Hin]; [exact Ec|auto].
      * right. exists (S j), b'. split; [exact Hj|]. split; [exact Hc'|].
        split; [|simpl; lia].
        intros [|j'] b0 Hlt Hl; simpl in Hl.
        -- injection Hl as <-. exact Ec.
        -- apply (Hmin j'); [lia|exact Hl].
Qed.

(** C7: [TxnStatus] returns the depth from the tip of the first block of
    the current chain containing the transaction, no shallower block
    containing it, and -1 when no block of the chain contains it. *)
Theorem TxnStatus_depth (bc : BlockChain) (txid : bytes) :
  Inv bc ->
  exists pre g k,
    walk (blocks bc) (LastHash bc) pre g /\
    TxnStatus txid bc = Some (k, bc) /\
    ((k = -1 /\ forall b, b ∈ pre ++ [g] -> contains_txn b txid = false) \/
     (exists j b, (pre ++ [g]) !! j = Some b /\ contains_txn b txid = true /\
        (forall j' b', (j' < j)%nat -> (pre ++ [g]) !! j' = Some b' ->
           contains_txn b' txid = false) /\
        k = Z.of_nat j)).
Proof.
  intros I.
  destruct (inv_chain bc I (LastHash bc) (inv_tip bc I)) as (pre & g & W & L).
  destruct (walk_same_genesis bc _ _ _ _ _ _ I W W) as (_ & Hg & _).
  assert (Hgc : contains_txn g txid = false) by (unfold contains_txn; rewrite Hg; reflexivity).
  destruct (txn_status_loop_walk bc txid _ _ _ W (loop_fuel bc)
              (NewIterator (LastHash bc))) as (k & Hk & Hr);
    unfold loop_fuel; simpl; try lia; try reflexivity.
  exists pre, g, k. split; [exact W|]. split.
  { unfold TxnStatus, bind, get_bc. exact Hk. }
  destruct Hr as [[-> Hall]|(j & b & Hj & Hc & Hmin & ->)].
  - left. split; [reflexivity|]. intros b Hin.
    apply elem_of_app in Hin as [Hin|Hin]; [auto|].
    apply list_elem_of_singleton in Hin as ->. exact Hgc.
  - right. exists j, b. split; [rewrite lookup_app_l; [exact Hj|];
      apply lookup_lt_Some in Hj; exact Hj|].
    split; [exact Hc|]. split; [|simpl; lia].
    intros j' b' Hlt Hl. apply lookup_lt_Some in Hj as Hjl.
    rewrite lookup_app_l in Hl by lia. exact (Hmin j' b' Hlt Hl).
Qed.

(** ** [FindUnspentTransactions] *)

Lemma scan_outputs_empty (pkh : bytes) (tx : Transaction) (outs : list TxOutput)
    (outIdx : Z) (acc : list Transaction) :
  scan_outputs ∅ pkh tx outs outIdx acc =
  acc ++ repeat tx (length (List.filter (fun o => IsLockedWithKey o pkh) outs)).
Proof.
  revert outIdx acc. induction outs as [|o outs IH]; intros outIdx acc; simpl.
  - rewrite app_nil_r. reflexivity.
  - rewrite lookup_empty. rewrite IH.
    destruct (IsLockedWithKey o pkh); simpl; [|reflexivity].
    rewrite <- app_assoc. reflexivity.
Qed.

Lemma scan_txns_empty (pkh : bytes) (txns : list Transaction)
    (acc : list Transaction) :
  scan_txns ∅ pkh txns acc =
  acc ++ concat (map (fun tx =>
    repeat tx (length (List.filter (fun o => IsLockedWithKey o pkh) (Outputs tx))))
    txns).
Proof.
  unfold scan_txns. revert acc.
  induction txns as [|tx txns IH]; intros acc; simpl.
  - rewrite app_nil_r. reflexivity.
  - rewrite IH, scan_outputs_empty, app_assoc. reflexivity.
Qed.

Lemma unspent_loop_walk (bc : BlockChain) (pkh : bytes) (h : bytes)
    (pre : list Block) (g : Block) :
  Inv bc -> walk (blocks bc) h pre g ->
  forall fuel iter acc, (length pre < fuel)%nat -> CurrentHash iter = h ->
  unspent_loop fuel ∅ pkh iter acc bc =
  Some (acc ++ concat (map (fun b => concat (map (fun tx =>
          repeat tx (length (List.filter (fun o => IsLockedWithKey o pkh)
                                     (Outputs tx)))) (Txns b)))
          (pre ++ [g])), bc).
Proof.
  intros I W. induction W as [h g Hg Hn|h b pre g Hb Hn W IH];
    intros [|fuel] iter acc Hf Hc; try (simpl in Hf; lia); simpl.
  - unfold bind. rewrite (Next_at bc iter g) by congruence.
    destruct (inv_genesis bc I) as [gh Ig].
    destruct (Ig h g Hg Hn) as (_ & Hp & _).
    rewrite bool_decide_eq_true_2 by exact Hp.
    unfold ret. rewrite scan_txns_empty, app_nil_r. reflexivity.
  - unfold bind. rewrite (Next_at bc iter b) by congruence.
    destruct (inv_parent bc I h b Hb Hn) as [Hp _].
    rewrite bool_decide_eq_false_2 by exact Hp.
    simpl in Hf. rewrite (IH fuel) by (simpl; lia || reflexivity).
    rewrite scan_txns_empty, <- app_assoc. reflexivity.
Qed.

(** C10: [FindUnspentTransactions] appends a transaction once for every
    one of its outputs locked with [pkh], walking from the tip to genesis;
    a transaction with [n] such outputs occurs [n] times in a row. *)
Theorem FindUnspentTransactions_copies (bc : BlockChain) (pkh : bytes) :
  Inv bc ->
  exists pre g,
    walk (blocks bc) (LastHash bc) pre g /\
    FindUnspentTransactions pkh bc =
      Some (concat (map (fun b => concat (map (fun tx =>
              repeat tx (length (List.filter (fun o => IsLockedWithKey o pkh)
                                         (Outputs tx)))) (Txns b)))
              (pre ++ [g])), bc).
Proof.
  intros I.
  destruct (inv_chain bc I (LastHash bc) (inv_tip bc I)) as (pre & g & W & L).
  exists pre, g. split; [exact W|].
  unfold FindUnspentTransactions, bind, get_bc, loop_fuel.
  rewrite (unspent_loop_walk bc pkh _ _ _ I W) by (simpl; lia || reflexivity).
  reflexivity.
Qed.

(** ** [FindSpendableOutputs] *)

Lemma spend_outputs_items (pkh : bytes) (amount : Z) (txID : bytes)
    (outs : list TxOutput) (outIdx acc : Z) (m : gmap bytes (list Z)) :
  spend_outputs pkh amount txID outs outIdx acc m =
  scan_items amount (items_from pkh txID outIdx outs) acc m.
Proof.
  unfold items_from. revert outIdx acc m.
  induction outs as [|o outs IH]; intros outIdx acc m; simpl; [reflexivity|].
  destruct (IsLockedWithKey o pkh) eqn:El; simpl.
  - destruct (acc <? amount); simpl; [|apply IH].
    destruct (amount <=? int_wrap (acc + Value o)); [reflexivity|apply IH].
  - apply IH.
Qed.

Lemma scan_items_app (amount : Z) (l1 l2 : list (bytes * Z * Z)) (acc : Z)
    (m : gmap bytes (list Z)) :
  scan_items amount (l1 ++ l2) acc m =
  let '(a, m', brk) := scan_items amount l1 acc m in
  if brk then (a, m', true) else scan_items amount l2 a m'.
Proof.
  revert acc m. induction l1 as [|[[id idx] v] l1 IH]; intros acc m; simpl;
    [reflexivity|].
  destruct (acc <? amount); [|apply IH].
  destruct (amount <=? int_wrap (acc + v)); [reflexivity|apply IH].
Qed.

Lemma spend_txs_items (pkh : bytes) (amount : Z) (txs : list Transaction)
    (acc : Z) (m : gmap bytes (list Z)) :
  spend_txs pkh amount txs acc m =
  let '(a, m', _) := scan_items amount (locked_items pkh txs) acc m in (a, m').
Proof.
  revert acc m. induction txs as [|tx txs IH]; intros acc m; simpl;
    [reflexivity|].
  unfold locked_items. simpl. rewrite scan_items_app, spend_outputs_items.
  destruct (scan_items amount (items_from pkh (ID tx) 0 (Outputs tx)) acc m)
    as [[a m'] brk].
  destruct brk; [reflexivity|]. apply IH.
Qed.

Lemma int_wrap_add_l (x y : Z) : int_wrap (int_wrap x + y) = int_wrap (x + y).
Proof.
  unfold int_wrap. f_equal.
  replace ((x + 2 ^ 63) mod 2 ^ 64 - 2 ^ 63 + y + 2 ^ 63)
    with ((x + 2 ^ 63) mod 2 ^ 64 + y) by ring.
  rewrite Z.add_mod_idemp_l by lia. f_equal. ring.
Qed.

Lemma int_wrap_idem (x : Z) : int_wrap (int_wrap x) = int_wrap x.
Proof. pose proof (int_wrap_add_l x 0) as E. rewrite !Z.add_0_r in E. exact E. Qed.

Lemma int_wrap_small (z : Z) : -2 ^ 63 <= z < 2 ^ 63 -> int_wrap z = z.
Proof. intros Hz. unfold int_wrap. rewrite Z.mod_small by lia. ring. Qed.

Lemma scan_items_spec (amount : Z) (l : list (bytes * Z * Z)) :
  forall acc m a m' brk, int_wrap acc = acc ->
  scan_items amount l acc m = (a, m', brk) ->
  exists k, (k <= length l)%nat /\
    a = int_wrap (acc + items_value (take k l)) /\
    m' = group_items m (take k l) /\
    (forall j, (j < k)%nat -> int_wrap (acc + items_value (take j l)) < amount) /\
    (k = length l \/ amount <= int_wrap (acc + items_value (take k l))).
Proof.
  induction l as [|[[id idx] v] l IH]; intros acc m a m' brk Hw E; simpl in E.
  - injection E as <- <- <-. exists 0%nat. simpl. rewrite Z.add_0_r, Hw.
    split; [lia|]. split; [reflexivity|]. split; [reflexivity|].
    split; [intros j Hj; lia|left; reflexivity].
  - destruct (acc <? amount) eqn:Hlt.
    + apply Z.ltb_lt in Hlt.
      destruct (amount <=? int_wrap (acc + v)) eqn:Hle.
      * apply Z.leb_le in Hle. injection E as <- <- <-.
        exists 1%nat. simpl. rewrite Z.add_0_r.
        split; [lia|]. split; [reflexivity|]. split; [reflexivity|].
        split; [|right; exact Hle].
        intros j Hj. assert (j = 0)%nat as -> by lia. simpl.
        rewrite Z.add_0_r, Hw. exact Hlt.
      * apply Z.leb_gt in Hle.
        apply IH in E as (k & Hk & Ha & Hm & Hmin & Hend); [|apply int_wrap_idem].
        rewrite !int_wrap_add_l in *.
        exists (S k). simpl. split; [lia|].
        split; [rewrite Ha; f_equal; ring|].
        split; [exact Hm|]. split.
        -- intros [|j] Hj; simpl.
           ++ rewrite Z.add_0_r, Hw. exact Hlt.
           ++ specialize (Hmin j ltac:(lia)). rewrite int_wrap_add_l in Hmin.
              rewrite Z.add_assoc. exact Hmin.
        -- destruct Hend as [->|Hend]; [left; reflexivity|right].
           rewrite Z.add_assoc. exact Hend.
    + apply Z.ltb_ge in Hlt.
      apply IH in E as (k & Hk & Ha & Hm & Hmin & Hend); [|exact Hw].
      destruct k as [|k].
      * exists 0%nat. simpl in *. split; [lia|]. split; [exact Ha|].
        split; [exact Hm|]. split; [intros j Hj; lia|right].
        rewrite Z.add_0_r, Hw. exact Hlt.
      * exfalso. specialize (Hmin 0%nat ltac:(lia)). simpl in Hmin.
        rewrite Z.add_0_r, Hw in Hmin. lia.
Qed.

Lemma unspent_loop_pure (fuel : nat) (spent : gmap bytes (list Z)) (pkh : bytes)
    (iter : ChainIterator) (acc : list Transaction) (bc bc' : BlockChain) x :
  unspent_loop fuel spent pkh iter acc bc = Some (x, bc') -> bc' = bc.
Proof.
  revert iter acc. induction fuel as [|fuel IH]; intros iter acc; simpl;
    [discriminate|].
  unfold bind. destruct (Next iter bc) as [[[[b e] it] bc1]|] eqn:En;
    [|discriminate].
  apply Next_pure in En as ->.
  destruct (bool_decide (PrevHash b = [])).
  - unfold ret. intros E. injection E as _ <-. reflexivity.
  - apply IH.
Qed.

(** C8 (amended): [FindSpendableOutputs] scans the locked outputs of the
    transactions returned by [FindUnspentTransactions] in order, adding
    values in Go's 64-bit [int] (wrapping around) and recording indices
    per transaction id, and stops at the first prefix whose wrapped total
    reaches [amount]; when no prefix does, it returns the wrapped total
    and the map of the whole scan. When no prefix sum of the locked values
    leaves the [int] range, the totals are the plain sums. *)
Theorem FindSpendableOutputs_scan (bc : BlockChain) (pkh : bytes) (amount : Z)
    (accumulated : Z) (unspentOuts : gmap bytes (list Z)) (bc' : BlockChain) :
  FindSpendableOutputs pkh amount bc = Some ((accumulated, unspentOuts), bc') ->
  exists txs k,
    FindUnspentTransactions pkh bc = Some (txs, bc) /\ bc' = bc /\
    let l := locked_items pkh txs in
    (k <= length l)%nat /\
    accumulated = int_wrap (items_value (take k l)) /\
    unspentOuts = group_items ∅ (take k l) /\
    (forall j, (j < k)%nat -> int_wrap (items_value (take j l)) < amount) /\
    (k = length l \/ amount <= int_wrap (items_value (take k l))) /\
    ((forall j, (j <= length l)%nat -> -2 ^ 63 <= items_value (take j l) < 2 ^ 63) ->
     accumulated = items_value (take k l) /\
     (forall j, (j < k)%nat -> items_value (take j l) < amount) /\
     (k = length l \/ amount <= items_value (take k l))).
Proof.
  unfold FindSpendableOutputs, bind at 1.
  destruct (FindUnspentTransactions pkh bc) as [[txs bc1]|] eqn:Ef;
    [|discriminate].
  assert (bc1 = bc) as ->.
  { unfold FindUnspentTransactions, bind, get_bc in Ef.
    exact (unspent_loop_pure _ _ _ _ _ _ _ _ Ef). }
  unfold ret. intros E. injection E as Hs <-.
  rewrite spend_txs_items in Hs.
  destruct (scan_items amount (locked_items pkh txs) 0 ∅) as [[a m] brk] eqn:Es.
  injection Hs as <- <-.
  destruct (scan_items_spec _ _ _ _ _ _ _ eq_refl Es)
    as (k & Hk & Ha & Hm & Hmin & Hend).
  exists txs, k. split; [reflexivity|]. split; [reflexivity|].
  cbv zeta. split; [exact Hk|]. split; [exact Ha|]. split; [exact Hm|].
  split; [exact Hmin|]. split; [exact Hend|].
  intros Hr. rewrite int_wrap_small in Ha by (apply Hr; lia).
  split; [exact Ha|]. split.
  - intros j Hj. specialize (Hmin j Hj). rewrite int_wrap_small in Hmin by (apply Hr; lia).
    exact Hmin.
  - destruct Hend as [Hend|Hend]; [left; exact Hend|right].
    rewrite int_wrap_small in Hend by (apply Hr; lia). exact Hend.
Qed.

(** ** The concrete chain *)

Module ScenarioFacts.
Import Scenario.

Lemma st6_reachable : reachable st6.
Proof.
  eapply (reach_put st5 B4' true true); [|vm_compute; reflexivity].
  eapply (reach_put st4 B3' true true); [|vm_compute; reflexivity].
  eapply (reach_put st3 B2' true true); [|vm_compute; reflexivity].
  eapply (reach_put st2 B3 true true); [|vm_compute; reflexivity].
  eapply (reach_put st1 B2 true true); [|vm_compute; reflexivity].
  eapply (reach_put st0 B1 true true); [|vm_compute; reflexivity].
  apply (reach_init 0 (bs "G")). vm_compute. reflexivity.
Qed.

Lemma st3_reachable : reachable st3.
Proof.
  eapply (reach_put st2 B3 true true); [|vm_compute; reflexivity].
  eapply (reach_put st1 B2 true true); [|vm_compute; reflexivity].
  eapply (reach_put st0 B1 true true); [|vm_compute; reflexivity].
  apply (reach_init 0 (bs "G")). vm_compute. reflexivity.
Qed.

Lemma st6_Inv : Inv st6.
Proof. exact (reachable_Inv st6 st6_reachable). Qed.

Lemma st3_Inv : Inv st3.
Proof. exact (reachable_Inv st3 st3_reachable). Qed.

End ScenarioFacts.

Module Claims.
Import Scenario ScenarioFacts.

(** C8 as first stated, with plain (unbounded) sums: on a reachable chain
    whose unspent outputs for [alice] are 5 then 2^63 - 1, asking for 10
    adds 5, then wraps to 4 - 2^63 (below 10) and keeps scanning, so the
    code returns 4 - 2^63, which is no prefix sum of the scanned values. *)
Theorem FindSpendableOutputs_unbounded_sum_fails :
  reachable stv2 /\
  FindSpendableOutputs alice 10 stv2 =
    Some ((4 - 2 ^ 63, <[ bs "vmax" := [0] ]> (<[ bs "v5" := [0] ]> ∅)), stv2) /\
  ~ (exists txs k,
       FindUnspentTransactions alice stv2 = Some (txs, stv2) /\ stv2 = stv2 /\
       let l := locked_items alice txs in
       (k <= length l)%nat /\
       4 - 2 ^ 63 = items_value (take k l) /\
       <[ bs "vmax" := [0] ]> (<[ bs "v5" := [0] ]> ∅) = group_items ∅ (take k l) /\
       (forall j, (j < k)%nat -> items_value (take j l) < 10) /\
       (k = length l \/ 10 <= items_value (take k l))).
Proof.
  split.
  { eapply (reach_put stv1 BV2 true true); [|vm_compute; reflexivity].
    eapply (reach_put st0 BV1 true true); [|vm_compute; reflexivity].
    apply (reach_init 0 (bs "G")). vm_compute. reflexivity. }
  split; [vm_compute; reflexivity|].
  intros (txs & k & E & _ & H). cbv zeta in H. destruct H as (Hk & Ha & _).
  assert (EF : FindUnspentTransactions alice stv2 = Some ([TV5; TVmax], stv2))
    by (vm_compute; reflexivity).
  rewrite EF in E. injection E as <-.
  assert (Hl : length (locked_items alice [TV5; TVmax]) = 2%nat)
    by (vm_compute; reflexivity).
  rewrite Hl in Hk.
  destruct k as [|[|[|k]]]; [| | |lia]; vm_compute in Ha; discriminate Ha.
Qed.

(** C2: on a reachable chain where [T2] (block [B2]) spends output 0 of
    [T1] (block [B1]), the spec's pass marks [(t1, 0)] spent and emits
    only [T1b], while the code, whose [spentTXOs] is never filled,
    emits [T1b] twice and the spent [T1]. *)
Theorem FindUnspentTransactions_spent_output :
  reachable st3 /\
  In (bs "t1", 0) (map (fun i => (in_ID i, in_Out i)) (Inputs T2)) /\
  FindUnspentTransactions_spec alice st3 = Some [T1b] /\
  FindUnspentTransactions alice st3 = Some ([T1b; T1b; T1], st3).
Proof.
  split; [exact st3_reachable|].
  split; [simpl; left; reflexivity|].
  split; vm_compute; reflexivity.
Qed.

End Claims.

(** ** Instances on the concrete chain *)

Module Witnesses.
Import Scenario ScenarioFacts.

(** Scenario S5: checking out [B4'] from tip [B3]. *)
Example checkout_S5 :
  CheckoutFork (bs "B4'") st6 = Some (([U2; U3; U4], [T2; T3]), st6).
Proof. vm_compute. reflexivity. Qed.

Lemma CheckoutFork_diff_witness :
  (Inv st6 /\ is_Some (blocks st6 !! bs "B4'") /\ bs "B4'" <> LastHash st6) /\
  exists preN gN preO gO (i : nat),
    walk (blocks st6) (bs "B4'") preN gN /\
    walk (blocks st6) (LastHash st6) preO gO /\
    let chainN := rev (preN ++ [gN]) in
    let chainO := rev (preO ++ [gO]) in
    let seqN := map Hash chainN in
    let seqO := map Hash chainO in
    (i <= length seqN)%nat /\ (i <= length seqO)%nat /\
    (forall j, (j < i)%nat -> seqN !! j = seqO !! j) /\
    (i = Nat.min (length seqN) (length seqO) \/ seqN !! i <> seqO !! i) /\
    CheckoutFork (bs "B4'") st6 =
      Some ((concat (map Txns (drop i chainN)),
             concat (map Txns (drop i chainO))), st6).
Proof.
  assert (Hs : is_Some (blocks st6 !! bs "B4'")) by (vm_compute; eexists; reflexivity).
  assert (Hn : bs "B4'" <> LastHash st6) by (intros E; vm_compute in E; discriminate E).
  split; [split; [exact st6_Inv|split; [exact Hs|exact Hn]]|].
  exact (CheckoutFork_diff st6 (bs "B4'") st6_Inv Hs Hn).
Defined.

Lemma Put_tip_update_witness :
  Put B1 true st0 = Some (true, st1) /\
  LastHash st1 = (if decide (PrevHash B1 = LastHash st0)
                  then Hash B1 else LastHash st0) /\
  blocks st1 = <[ Hash B1 := B1 ]> (blocks st0).
Proof.
  assert (E : Put B1 true st0 = Some (true, st1)) by (vm_compute; reflexivity).
  split; [exact E|].
  exact (Put_tip_update B1 true st0 st1 E).
Defined.

Lemma reachable_P1_P2_witness :
  reachable st6 /\
  (forall h b, blocks st6 !! h = Some b ->
     (BlockNum b = 0 /\ PrevHash b = []) \/ is_Some (blocks st6 !! PrevHash b)) /\
  is_Some (blocks st6 !! LastHash st6).
Proof.
  split; [exact st6_reachable|].
  exact (reachable_P1_P2 st6 st6_reachable).
Defined.

Lemma TxnStatus_depth_witness :
  Inv st3 /\
  exists pre g k,
    walk (blocks st3) (LastHash st3) pre g /\
    TxnStatus (bs "t1") st3 = Some (k, st3) /\
    ((k = -1 /\ forall b, b ∈ pre ++ [g] -> contains_txn b (bs "t1") = false) \/
     (exists j b, (pre ++ [g]) !! j = Some b /\ contains_txn b (bs "t1") = true /\
        (forall j' b', (j' < j)%nat -> (pre ++ [g]) !! j' = Some b' ->
           contains_txn b' (bs "t1") = false) /\
        k = Z.of_nat j)).
Proof.
  split; [exact st3_Inv|].
  exact (TxnStatus_depth st3 (bs "t1") st3_Inv).
Defined.

Lemma FindSpendableOutputs_scan_witness :
  FindSpendableOutputs alice 7 st3 =
    Some ((8, <[ bs "t1b" := [0; 1] ]> ∅), st3) /\
  exists txs k,
    FindUnspentTransactions alice st3 = Some (txs, st3) /\ st3 = st3 /\
    let l := locked_items alice txs in
    (k <= length l)%nat /\
    8 = int_wrap (items_value (take k l)) /\
    <[ bs "t1b" := [0; 1] ]> ∅ = group_items ∅ (take k l) /\
    (forall j, (j < k)%nat -> int_wrap (items_value (take j l)) < 7) /\
    (k = length l \/ 7 <= int_wrap (items_value (take k l))) /\
    ((forall j, (j <= length l)%nat -> -2 ^ 63 <= items_value (take j l) < 2 ^ 63) ->
     8 = items_value (take k l) /\
     (forall j, (j < k)%nat -> items_value (take j l) < 7) /\
     (k = length l \/ 7 <= items_value (take k l))).
Proof.
  assert (E : FindSpendableOutputs alice 7 st3 =
              Some ((8, <[ bs "t1b" := [0; 1] ]> ∅), st3))
    by (vm_compute; reflexivity).
  split; [exact E|].
  exact (FindSpendableOutputs_scan st3 alice 7 8 _ st3 E).
Defined.

Lemma FindUnspentTransactions_copies_witness :
  Inv st3 /\
  exists pre g,
    walk (blocks st3) (LastHash st3) pre g /\
    FindUnspentTransactions alice st3 =
      Some (concat (map (fun b => concat (map (fun tx =>
              repeat tx (length (List.filter (fun o => IsLockedWithKey o alice)
                                         (Outputs tx)))) (Txns b)))
              (pre ++ [g])), st3).
Proof.
  split; [exact st3_Inv|].
  exact (FindUnspentTransactions_copies st3 alice st3_Inv).
Defined.

End Witnesses.

(* ================================================================== *)
(** * Further properties of the code *)

Lemma walk_det (st : gmap bytes Block) h pre1 g1 pre2 g2 :
  walk st h pre1 g1 -> walk st h pre2 g2 -> pre1 = pre2 /\ g1 = g2.
Proof.
  intros W1. revert pre2 g2.
  induction W1 as [h g Hg Hn|h b pre g Hb Hn W IH]; intros pre2 g2 W2.
  - destruct W2 as [h' g' Hg' Hn'|h' b' pre' g' Hb' Hn' W'];
      [split; congruence|congruence].
  - destruct W2 as [h' g' Hg' Hn'|h' b' pre' g' Hb' Hn' W']; [congruence|].
    assert (b' = b) as -> by congruence.
    destruct (IH _ _ W') as [-> ->]. auto.
Qed.

Lemma Inv_walk_bound (bc : BlockChain) h pre g :
  Inv bc -> walk (blocks bc) h pre g -> (length pre < size (blocks bc))%nat.
Proof.
  intros I W.
  assert (Hs : is_Some (blocks bc !! h)) by (inversion W; eauto).
  destruct (inv_chain bc I h Hs) as (pre' & g' & W' & L).
  destruct (walk_det _ _ _ _ _ _ W W') as [-> _]. exact L.
Qed.

Lemma depth_in_ge (bs : list Block) (txid : bytes) : -1 <= depth_in bs txid.
Proof.
  induction bs as [|b bs IH]; simpl; [lia|].
  destruct (contains_txn b txid); [lia|]. destruct (depth_in bs txid =? -1) eqn:E;
    [lia|apply Z.eqb_neq in E; lia].
Qed.

Lemma txn_status_loop_depth (bc : BlockChain) (txid : bytes) (h : bytes)
    (pre : list Block) (g : Block) :
  walk (blocks bc) h pre g ->
  forall fuel iter, (length pre < fuel)%nat -> CurrentHash iter = h ->
  0 <= Index iter + 1 ->
  txn_status_loop fuel iter txid (-1) bc =
  Some (if depth_in pre txid =? -1 then -1 else Index iter + 1 + depth_in pre txid, bc).
Proof.
  induction 1 as [h g Hg Hn|h b pre g Hb Hn W IH];
    intros [|fuel] iter Hf Hc Hi; try (simpl in Hf; lia); simpl.
  - unfold bind. rewrite (Next_at bc iter g) by congruence. rewrite Hn. reflexivity.
  - unfold bind. rewrite (Next_at bc iter b) by congruence.
    apply Z.eqb_neq in Hn. rewrite Hn. simpl.
    rewrite find_in_block_spec. fold (contains_txn b txid).
    destruct (contains_txn b txid).
    + assert (E : (Index iter + 1 =? -1) = false) by (apply Z.eqb_neq; lia).
      rewrite E. simpl. unfold ret. do 2 f_equal. lia.
    + simpl. simpl in Hf. rewrite (IH fuel) by (simpl; lia || reflexivity). simpl.
      pose proof (depth_in_ge pre txid) as Hge.
      destruct (depth_in pre txid =? -1) eqn:E; [reflexivity|].
      apply Z.eqb_neq in E.
      assert (E' : (depth_in pre txid + 1 =? -1) = false) by (apply Z.eqb_neq; lia).
      rewrite E'. do 2 f_equal. lia.
Qed.

Lemma TxnStatus_walk (bc : BlockChain) (txid : bytes) pre g :
  Inv bc -> walk (blocks bc) (LastHash bc) pre g ->
  TxnStatus txid bc = Some (depth_in pre txid, bc).
Proof.
  intros I W. unfold TxnStatus, bind, get_bc, loop_fuel.
  pose proof (Inv_walk_bound bc _ _ _ I W).
  rewrite (txn_status_loop_depth bc txid _ _ _ W) by (simpl; lia || reflexivity).
  simpl. pose proof (depth_in_ge pre txid).
  destruct (depth_in pre txid =? -1) eqn:E;
    [apply Z.eqb_eq in E; rewrite E; reflexivity|reflexivity].
Qed.

Lemma find_transaction_loop_walk (bc : BlockChain) (id : bytes) h pre g :
  Inv bc -> walk (blocks bc) h pre g ->
  forall fuel iter, (length pre < fuel)%nat -> CurrentHash iter = h ->
  find_transaction_loop fuel iter id bc =
  Some (match txn_on_chain (pre ++ [g]) id with
        | Some tx => inl tx
        | None => inr "Transaction does not exist"
        end, bc).
Proof.
  intros I W. induction W as [h g Hg Hn|h b pre g Hb Hn W IH];
    intros [|fuel] iter Hf Hc; try (simpl in Hf; lia); simpl.
  - unfold bind. rewrite (Next_at bc iter g) by congruence.
    destruct (find_txn (Txns g) id); [reflexivity|].
    destruct (inv_genesis bc I) as [gh Ig]. destruct (Ig h g Hg Hn) as (_ & Hp & _).
    rewrite bool_decide_eq_true_2 by exact Hp. reflexivity.
  - unfold bind. rewrite (Next_at bc iter b) by congruence.
    destruct (find_txn (Txns b) id); [reflexivity|].
    destruct (inv_parent bc I h b Hb Hn) as [Hp _].
    rewrite bool_decide_eq_false_2 by exact Hp.
    simpl in Hf. apply (IH fuel); [lia|reflexivity].
Qed.

Lemma FindTransaction_walk (bc : BlockChain) (id : bytes) pre g :
  Inv bc -> walk (blocks bc) (LastHash bc) pre g ->
  FindTransaction id bc =
  Some (match txn_on_chain (pre ++ [g]) id with
        | Some tx => inl tx
        | None => inr "Transaction does not exist"
        end, bc).
Proof.
  intros I W. unfold FindTransaction, bind, get_bc, loop_fuel.
  pose proof (Inv_walk_bound bc _ _ _ I W).
  apply (find_transaction_loop_walk bc id _ _ _ I W); [lia|reflexivity].
Qed.

Lemma find_txn_spec (txns : list Transaction) (id : bytes) :
  match find_txn txns id with
  | Some tx => ID tx = id /\ In tx txns
  | None => existsb (fun txn => bytes_eqb (ID txn) id) txns = false
  end.
Proof.
  induction txns as [|t txns IH]; simpl; [reflexivity|].
  destruct (bytes_eqb (ID t) id) eqn:E.
  - apply bytes_eqb_spec in E. auto.
  - destruct (find_txn txns id); [tauto|exact IH].
Qed.

Lemma txn_on_chain_spec (bs : list Block) (id : bytes) :
  match txn_on_chain bs id with
  | Some tx => exists j b, bs !! j = Some b /\ find_txn (Txns b) id = Some tx /\
      ID tx = id /\
      forall j' b', (j' < j)%nat -> bs !! j' = Some b' -> contains_txn b' id = false
  | None => forall b, b ∈ bs -> contains_txn b id = false
  end.
Proof.
  induction bs as [|b bs IH]; simpl.
  - intros b Hb. apply elem_of_nil in Hb. contradiction.
  - pose proof (find_txn_spec (Txns b) id) as Hf.
    destruct (find_txn (Txns b) id) as [tx|] eqn:E.
    + exists 0%nat, b. split; [reflexivity|]. split; [exact E|].
      split; [tauto|intros j' b' Hj'; lia].
    + destruct (txn_on_chain bs id) as [tx|].
      * destruct IH as (j & b0 & Hj & Hfb & Hid & Hmin).
        exists (S j), b0. split; [exact Hj|]. split; [exact Hfb|]. split; [exact Hid|].
        intros [|j'] b' Hlt Hl; simpl in Hl; [injection Hl as <-; exact Hf|].
        apply (Hmin j'); [lia|exact Hl].
      * intros b0 Hb0. apply elem_of_cons in Hb0 as [->|Hb0]; [exact Hf|auto].
Qed.

Lemma contains_find_txn (b : Block) (id : bytes) :
  contains_txn b id = match find_txn (Txns b) id with Some _ => true | None => false end.
Proof.
  unfold contains_txn. induction (Txns b) as [|t l IH]; simpl; [reflexivity|].
  destruct (bytes_eqb (ID t) id); [reflexivity|exact IH].
Qed.

Lemma depth_in_txn_on_chain (pre : list Block) (g : Block) (id : bytes) :
  Txns g = [] ->
  (depth_in pre id = -1 /\ txn_on_chain (pre ++ [g]) id = None) \/
  (0 <= depth_in pre id /\ exists b tx,
     pre !! Z.to_nat (depth_in pre id) = Some b /\
     find_txn (Txns b) id = Some tx /\ txn_on_chain (pre ++ [g]) id = Some tx).
Proof.
  intros Hg. induction pre as [|b pre IH]; simpl.
  - rewrite Hg. simpl. left. auto.
  - rewrite contains_find_txn.
    destruct (find_txn (Txns b) id) as [tx|] eqn:E; simpl.
    + right. split; [lia|]. exists b, tx. auto.
    + destruct IH as [[-> Hn]|[Hd (b' & tx & Hb' & Hf & Ht)]].
      * left. simpl. auto.
      * right. assert (E' : (depth_in pre id =? -1) = false) by (apply Z.eqb_neq; lia).
        rewrite E'. split; [lia|]. exists b', tx.
        replace (Z.to_nat (depth_in pre id + 1)) with (S (Z.to_nat (depth_in pre id)))
          by lia.
        auto.
Qed.

(** X1: [FindTransaction(id)] walks the current chain from the tip and
    returns the first transaction with this id, taken from the first
    block (tip first) that contains one; when no block of the chain holds
    it, it returns the error "Transaction does not exist" (and no
    transaction). The chain is never changed. *)
Theorem FindTransaction_result (bc : BlockChain) (id : bytes) :
  Inv bc ->
  exists pre g, walk (blocks bc) (LastHash bc) pre g /\
  ((FindTransaction id bc = Some (inr "Transaction does not exist", bc) /\
    forall b, b ∈ pre ++ [g] -> contains_txn b id = false) \/
   (exists j b tx, FindTransaction id bc = Some (inl tx, bc) /\
    (pre ++ [g]) !! j = Some b /\ find_txn (Txns b) id = Some tx /\ ID tx = id /\
    forall j' b', (j' < j)%nat -> (pre ++ [g]) !! j' = Some b' ->
                  contains_txn b' id = false)).
Proof.
  intros I.
  destruct (inv_chain bc I (LastHash bc) (inv_tip bc I)) as (pre & g & W & _).
  exists pre, g. split; [exact W|].
  rewrite (FindTransaction_walk bc id pre g I W).
  pose proof (txn_on_chain_spec (pre ++ [g]) id) as S.
  destruct (txn_on_chain (pre ++ [g]) id) as [tx|].
  - right. destruct S as (j & b & Hj & Hf & Hid & Hmin). exists j, b, tx. auto.
  - left. auto.
Qed.

(** X2: [TxnStatus(id)] and [FindTransaction(id)] agree on the current
    chain: the status is -1 exactly when [FindTransaction] reports that
    the transaction does not exist; otherwise the status k is at least 0
    and the transaction [FindTransaction] returns sits in the block k
    steps below the tip. *)
Theorem TxnStatus_FindTransaction (bc : BlockChain) (id : bytes) :
  Inv bc ->
  exists pre g k r,
    walk (blocks bc) (LastHash bc) pre g /\
    TxnStatus id bc = Some (k, bc) /\ FindTransaction id bc = Some (r, bc) /\
    ((k = -1 /\ r = inr "Transaction does not exist") \/
     (0 <= k /\ exists b tx, pre !! Z.to_nat k = Some b /\ r = inl tx /\
                             In tx (Txns b) /\ ID tx = id)).
Proof.
  intros I.
  destruct (inv_chain bc I (LastHash bc) (inv_tip bc I)) as (pre & g & W & _).
  destruct (walk_same_genesis bc _ _ _ _ _ _ I W W) as (_ & Hg & _).
  exists pre, g, (depth_in pre id),
    (match txn_on_chain (pre ++ [g]) id with
     | Some tx => inl tx | None => inr "Transaction does not exist" end).
  split; [exact W|].
  split; [exact (TxnStatus_walk bc id pre g I W)|].
  split; [exact (FindTransaction_walk bc id pre g I W)|].
  destruct (depth_in_txn_on_chain pre g id Hg)
    as [[-> ->]|[Hd (b & tx & Hb & Hf & ->)]]; [left; auto|].
  right. split; [exact Hd|]. exists b, tx.
  pose proof (find_txn_spec (Txns b) id) as S. rewrite Hf in S.
  destruct S. auto.
Qed.

Lemma walk_Init (nonce : Z) (hash : bytes) (bc : BlockChain) :
  Init false nonce hash = Some bc ->
  walk (blocks bc) (LastHash bc) [] (Genesis nonce hash).
Proof.
  unfold Init. intros E. injection E as <-. simpl.
  apply walk_genesis; [rewrite lookup_singleton_eq; reflexivity|reflexivity].
Qed.

(** X3: right after [Init] on a fresh database, every transaction has
    status -1, [FindTransaction] reports that it does not exist, and no
    key owns an unspent transaction: the genesis block holds none. *)
Theorem Init_queries_empty (nonce : Z) (hash : bytes) (bc : BlockChain)
    (txid pkh : bytes) :
  Init false nonce hash = Some bc ->
  TxnStatus txid bc = Some (-1, bc) /\
  FindTransaction txid bc = Some (inr "Transaction does not exist", bc) /\
  FindUnspentTransactions pkh bc = Some ([], bc).
Proof.
  intros E. pose proof (Inv_Init _ _ _ E) as I. pose proof (walk_Init _ _ _ E) as W.
  split; [exact (TxnStatus_walk bc txid _ _ I W)|].
  split; [exact (FindTransaction_walk bc txid _ _ I W)|].
  unfold FindUnspentTransactions, bind, get_bc, loop_fuel.
  rewrite (unspent_loop_walk bc pkh _ _ _ I W) by (simpl; lia || reflexivity).
  reflexivity.
Qed.

Section PutExtras.
Context `{Hasher}.

Lemma put_state_extends (bc : BlockChain) (block : Block) (owned : bool) pre g :
  Inv bc -> ~ put_rejects bc block owned ->
  walk (blocks bc) (LastHash bc) pre g ->
  (LastHash (put_state bc block) = LastHash bc /\
   walk (blocks (put_state bc block)) (LastHash (put_state bc block)) pre g) \/
  (PrevHash block = LastHash bc /\ LastHash (put_state bc block) = Hash block /\
   walk (blocks (put_state bc block)) (LastHash (put_state bc block)) (block :: pre) g).
Proof.
  intros I Hr W. unfold put_rejects in Hr.
  assert (Hfresh : blocks bc !! Hash block = None)
    by (destruct (blocks bc !! Hash block) eqn:E; [exfalso; eauto 10|reflexivity]).
  assert (W' : walk (blocks (put_state bc block)) (LastHash bc) pre g)
    by (apply walk_insert_fresh; assumption).
  unfold put_state in *; simpl in *.
  destruct (bytes_eqb (PrevHash block) (LastHash bc)) eqn:E.
  - apply bytes_eqb_spec in E. right. split; [exact E|]. split; [reflexivity|].
    apply walk_step; [apply lookup_insert_eq|tauto|]. rewrite E. exact W'.
  - left. auto.
Qed.

(** X4: [Put] never removes or overwrites a stored block: whatever it
    returns, every block stored before the call is stored under the same
    hash after it. *)
Theorem Put_append_only (block : Block) (owned : bool) (bc bc' : BlockChain)
    (r : bool) (h : bytes) (x : Block) :
  Put block owned bc = Some (r, bc') ->
  blocks bc !! h = Some x -> blocks bc' !! h = Some x.
Proof.
  intros E Hx.
  destruct (Put_cases block owned bc) as [[_ E']|[Hr E']]; rewrite E' in E;
    injection E as _ <-; [exact Hx|].
  unfold put_rejects in Hr. unfold put_state. simpl.
  rewrite lookup_insert_ne; [exact Hx|].
  intros Heq. subst h. apply Hr. right; right; right; right; right; left. eauto.
Qed.

(** X5: on a well-formed chain the tip only moves forward along one
    chain: after [Put], the current chain is the old one, or the old one
    with the new block on top (when the block's parent was the tip). *)
Theorem Put_chain_extends (block : Block) (owned : bool) (bc bc' : BlockChain)
    (r : bool) :
  Inv bc -> Put block owned bc = Some (r, bc') ->
  exists pre g, walk (blocks bc) (LastHash bc) pre g /\
   (walk (blocks bc') (LastHash bc') pre g \/
    (r = true /\ PrevHash block = LastHash bc /\ LastHash bc' = Hash block /\
     walk (blocks bc') (LastHash bc') (block :: pre) g)).
Proof.
  intros I E.
  destruct (inv_chain bc I (LastHash bc) (inv_tip bc I)) as (pre & g & W & _).
  exists pre, g. split; [exact W|].
  destruct (Put_cases block owned bc) as [[_ E']|[Hr E']]; rewrite E' in E;
    injection E as <- <-; [left; exact W|].
  destruct (put_state_extends bc block owned pre g I Hr W)
    as [[_ W']|(Hp & Hl & W')]; [left; exact W'|right; auto].
Qed.

(** X6: when [Put] accepts a block whose parent is the tip, the status
    of every transaction is recomputed from the old one: 0 if the new
    block contains it, otherwise the old status plus one, and -1 stays
    -1. *)
Theorem TxnStatus_after_Put (block : Block) (owned : bool) (bc bc' : BlockChain)
    (txid : bytes) :
  Inv bc -> Put block owned bc = Some (true, bc') -> PrevHash block = LastHash bc ->
  exists k, TxnStatus txid bc = Some (k, bc) /\
    TxnStatus txid bc' =
      Some (if contains_txn block txid then 0
            else if k =? -1 then -1 else k + 1, bc').
Proof.
  intros I E Hp.
  destruct (inv_chain bc I (LastHash bc) (inv_tip bc I)) as (pre & g & W & _).
  exists (depth_in pre txid). split; [exact (TxnStatus_walk bc txid pre g I W)|].
  destruct (Put_cases block owned bc) as [[_ E']|[Hr E']]; rewrite E' in E;
    [discriminate|]. injection E as <-.
  pose proof (Inv_put_state bc block owned I Hr) as I'.
  destruct (put_state_extends bc block owned pre g I Hr W)
    as [[Hl _]|(_ & _ & W')].
  - exfalso. unfold put_state in Hl. simpl in Hl.
    rewrite (proj2 (bytes_eqb_spec _ _) Hp) in Hl.
    destruct (inv_chain bc I (LastHash bc) (inv_tip bc I)) as (pre0 & g0 & W0 & _).
    unfold put_rejects in Hr. apply Hr. right; right; right; right; right; left.
    rewrite Hl. exact (inv_tip bc I).
  - rewrite (TxnStatus_walk _ txid _ _ I' W'). reflexivity.
Qed.

End PutExtras.

(** ** [CheckoutFork] on related tips *)

Lemma first_diff_app_l (l m : list bytes) : first_diff (l ++ m) l = length l.
Proof.
  induction l as [|x l IH]; simpl; [destruct m; reflexivity|].
  rewrite (proj2 (bytes_eqb_spec x x) eq_refl). rewrite IH. reflexivity.
Qed.

Lemma first_diff_comm (a b : list bytes) : first_diff a b = first_diff b a.
Proof.
  revert b. induction a as [|x a IH]; intros [|y b]; simpl; try reflexivity.
  destruct (bytes_eqb x y) eqn:E1, (bytes_eqb y x) eqn:E2; try reflexivity.
  - rewrite IH. reflexivity.
  - apply bytes_eqb_spec in E1. subst. rewrite (proj2 (bytes_eqb_spec y y) eq_refl) in E2.
    discriminate.
  - apply bytes_eqb_spec in E2. subst. rewrite (proj2 (bytes_eqb_spec x x) eq_refl) in E1.
    discriminate.
Qed.

Lemma CheckoutFork_walks (bc : BlockChain) (new_tip : bytes) preN gN preO gO :
  Inv bc -> walk (blocks bc) new_tip preN gN -> walk (blocks bc) (LastHash bc) preO gO ->
  let i := first_diff (rev (map Hash preN)) (rev (map Hash preO)) in
  CheckoutFork new_tip bc =
    Some ((concat (map Txns (drop i (rev preN))),
           concat (map Txns (drop i (rev preO)))), bc).
Proof.
  intros I WN WO i.
  pose proof (Inv_walk_bound bc _ _ _ I WN) as LN.
  pose proof (Inv_walk_bound bc _ _ _ I WO) as LO.
  unfold CheckoutFork, bind, get_bc.
  destruct (bytes_eqb new_tip (LastHash bc)) eqn:Hf.
  - apply bytes_eqb_spec in Hf. rewrite Hf in WN.
    destruct (walk_det _ _ _ _ _ _ WN WO) as [-> _].
    unfold i. pose proof (first_diff_app_l (rev (map Hash preO)) []) as Hd.
    rewrite app_nil_r in Hd. rewrite Hd, length_rev, length_map.
    rewrite drop_ge by (rewrite length_rev; lia). reflexivity.
  - unfold loop_fuel.
    rewrite (collect_hashes_walk bc _ _ _ WN) by (reflexivity || lia).
    rewrite (collect_hashes_walk bc _ _ _ WO) by (reflexivity || lia).
    rewrite !app_nil_r. fold i.
    rewrite <- !map_rev, !skipn_map.
    pose proof (walk_stored bc _ _ _ I WN) as SN.
    pose proof (walk_stored bc _ _ _ I WO) as SO.
    rewrite (collect_txns_stored bc (drop _ (rev preN))).
    2:{ apply Forall_drop, Forall_rev. eapply Forall_impl; [exact SN|]. intros x [Hx _]; exact Hx. }
    rewrite (collect_txns_stored bc (drop _ (rev preO))).
    2:{ apply Forall_drop, Forall_rev. eapply Forall_impl; [exact SO|]. intros x [Hx _]; exact Hx. }
    reflexivity.
Qed.

(** X7: checking out a descendant of the current tip (a tip whose chain
    is the current chain with the blocks [ext] on top) adds exactly the
    transactions of [ext], oldest block first, and removes none. *)
Theorem CheckoutFork_descendant (bc : BlockChain) (new_tip : bytes)
    (ext pre : list Block) (g : Block) :
  Inv bc -> walk (blocks bc) (LastHash bc) pre g ->
  walk (blocks bc) new_tip (ext ++ pre) g ->
  CheckoutFork new_tip bc = Some ((concat (map Txns (rev ext)), []), bc).
Proof.
  intros I WO WN. rewrite (CheckoutFork_walks bc new_tip _ _ _ _ I WN WO).
  rewrite map_app, rev_app_distr, first_diff_app_l, rev_app_distr.
  rewrite length_rev, length_map.
  rewrite drop_app_length' by (rewrite length_rev; reflexivity).
  rewrite drop_ge by (rewrite length_rev; lia). reflexivity.
Qed.

(** X8: checking out an ancestor of the current tip (the current chain is
    the new tip's chain with the blocks [ext] on top) removes exactly the
    transactions of [ext], oldest block first, and adds none. *)
Theorem CheckoutFork_ancestor (bc : BlockChain) (new_tip : bytes)
    (ext pre : list Block) (g : Block) :
  Inv bc -> walk (blocks bc) new_tip pre g ->
  walk (blocks bc) (LastHash bc) (ext ++ pre) g ->
  CheckoutFork new_tip bc = Some (([], concat (map Txns (rev ext))), bc).
Proof.
  intros I WN WO. rewrite (CheckoutFork_walks bc new_tip _ _ _ _ I WN WO).
  rewrite map_app, rev_app_distr, first_diff_comm, first_diff_app_l, rev_app_distr.
  rewrite length_rev, length_map.
  rewrite drop_app_length' by (rewrite length_rev; reflexivity).
  rewrite drop_ge by (rewrite length_rev; lia). reflexivity.
Qed.

Lemma Inv_retip (bc : BlockChain) (h : bytes) :
  Inv bc -> is_Some (blocks bc !! h) ->
  Inv {| LastHash := h; blocks := blocks bc |}.
Proof.
  intros I Hh. destruct I as [Ik Ig Ip It Ic]. constructor; simpl; assumption.
Qed.

(** X9: [CheckoutFork] is symmetric: if checking out [h] from the current
    tip adds [a] and removes [r], then with [h] as tip, checking out the
    old tip adds [r] and removes [a]. *)
Theorem CheckoutFork_swap (bc : BlockChain) (h : bytes)
    (a r : list Transaction) :
  Inv bc -> is_Some (blocks bc !! h) ->
  CheckoutFork h bc = Some ((a, r), bc) ->
  let bc' := {| LastHash := h; blocks := blocks bc |} in
  CheckoutFork (LastHash bc) bc' = Some ((r, a), bc').
Proof.
  intros I Hh E bc'.
  pose proof (Inv_retip bc h I Hh) as I'.
  destruct (inv_chain bc I h Hh) as (preN & gN & WN & _).
  destruct (inv_chain bc I (LastHash bc) (inv_tip bc I)) as (preO & gO & WO & _).
  rewrite (CheckoutFork_walks bc h _ _ _ _ I WN WO) in E.
  injection E as <- <-.
  rewrite (CheckoutFork_walks bc' (LastHash bc) preO gO preN gN I' WO WN).
  rewrite first_diff_comm. reflexivity.
Qed.

(** ** [FindSpendableOutputs] with nothing to pay *)

Lemma scan_items_reached (amount : Z) (l : list (bytes * Z * Z)) (acc : Z)
    (m : gmap bytes (list Z)) :
  amount <= acc -> scan_items amount l acc m = (acc, m, false).
Proof.
  intros Ha. induction l as [|[[id idx] v] l IH]; simpl; [reflexivity|].
  destruct (acc <? amount) eqn:E; [apply Z.ltb_lt in E; lia|exact IH].
Qed.

(** X10: asking [FindSpendableOutputs] for an amount of at most 0 takes
    no output: the accumulated value is 0 and the map of chosen outputs is
    empty, whenever the scan for unspent transactions succeeds. *)
Theorem FindSpendableOutputs_nonpositive (pkh : bytes) (amount : Z)
    (bc bc' : BlockChain) (txs : list Transaction) :
  FindUnspentTransactions pkh bc = Some (txs, bc') -> amount <= 0 ->
  FindSpendableOutputs pkh amount bc = Some ((0, ∅), bc').
Proof.
  intros E Ha. unfold FindSpendableOutputs, bind. rewrite E. unfold ret.
  rewrite spend_txs_items, scan_items_reached by lia. reflexivity.
Qed.

(** ** [SignTransaction] and [VerifyTransaction] *)

Section TxCryptoExtras.
Context `{TxCrypto}.

Lemma collect_prevTXs_found (bc : BlockChain) pre g :
  Inv bc -> walk (blocks bc) (LastHash bc) pre g ->
  forall ins m,
  Forall (fun i => is_Some (txn_on_chain (pre ++ [g]) (in_ID i))) ins ->
  exists m', collect_prevTXs ins m bc = Some (m', bc) /\
    forall k, m' !! k = if decide (k ∈ map in_ID ins)
                        then txn_on_chain (pre ++ [g]) k else m !! k.
Proof.
  intros I W ins. induction ins as [|i ins IH]; intros m Hall.
  - exists m. split; [reflexivity|]. intros k. simpl.
    reflexivity.
  - apply Forall_cons in Hall as [[tx Hi] Hall]. simpl. unfold bind.
    rewrite (FindTransaction_walk bc (in_ID i) pre g I W), Hi.
    pose proof (txn_on_chain_spec (pre ++ [g]) (in_ID i)) as S. rewrite Hi in S.
    destruct S as (_ & _ & _ & _ & Hid & _).
    destruct (IH (<[ID tx := tx]> m) Hall) as (m' & E & Hm').
    exists m'. split; [exact E|]. intros k. rewrite Hm'.
    destruct (decide (k ∈ map in_ID ins)) as [Hk|Hk].
    + rewrite decide_True; [reflexivity|]. apply elem_of_cons. auto.
    + rewrite Hid. destruct (decide (in_ID i = k)) as [<-|Hne].
      * rewrite lookup_insert_eq, decide_True; [symmetry; exact Hi|].
        apply elem_of_cons. auto.
      * rewrite lookup_insert_ne by exact Hne. rewrite decide_False; [reflexivity|].
        intros Hk'. apply elem_of_cons in Hk' as [->|Hk']; [apply Hne; reflexivity|].
        contradiction.
Qed.

Lemma collect_prevTXs_missing (bc : BlockChain) pre g :
  Inv bc -> walk (blocks bc) (LastHash bc) pre g ->
  forall ins m,
  Exists (fun i => txn_on_chain (pre ++ [g]) (in_ID i) = None) ins ->
  collect_prevTXs ins m bc = None.
Proof.
  intros I W ins. induction ins as [|i ins IH]; intros m Hex.
  - apply Exists_nil in Hex. contradiction.
  - simpl. unfold bind. rewrite (FindTransaction_walk bc (in_ID i) pre g I W).
    apply Exists_cons in Hex as [Hi|Hex].
    + rewrite Hi. reflexivity.
    + destruct (txn_on_chain (pre ++ [g]) (in_ID i)); [apply IH; exact Hex|reflexivity].
Qed.

Lemma collect_prevTXs_cases (bc : BlockChain) pre g (ins : list TxInput) :
  Inv bc -> walk (blocks bc) (LastHash bc) pre g ->
  (Exists (fun i => txn_on_chain (pre ++ [g]) (in_ID i) = None) ins /\
   collect_prevTXs ins ∅ bc = None) \/
  (Forall (fun i => is_Some (txn_on_chain (pre ++ [g]) (in_ID i))) ins /\
   exists prevTXs, collect_prevTXs ins ∅ bc = Some (prevTXs, bc) /\
   forall k, prevTXs !! k = if decide (k ∈ map in_ID ins)
                            then txn_on_chain (pre ++ [g]) k else None).
Proof.
  intros I W.
  destruct (decide (Forall (fun i => is_Some (txn_on_chain (pre ++ [g]) (in_ID i))) ins))
    as [Hall|Hnot].
  - right. split; [exact Hall|].
    destruct (collect_prevTXs_found bc pre g I W ins ∅ Hall) as (m' & E & Hm').
    exists m'. split; [exact E|]. intros k. rewrite Hm', lookup_empty. reflexivity.
  - left. assert (Hex : Exists (fun i => txn_on_chain (pre ++ [g]) (in_ID i) = None) ins).
    { apply not_Forall_Exists in Hnot; [|apply _].
      eapply Exists_impl; [exact Hnot|]. intros x Hx. apply eq_None_not_Some. exact Hx. }
    split; [exact Hex|]. exact (collect_prevTXs_missing bc pre g I W ins ∅ Hex).
Qed.

(** X11: [VerifyTransaction(tx)] looks up the transaction of every input
    with [FindTransaction] on the current chain. If one of them is not on
    the chain, the lookup is fatal (no result). Otherwise [Verify] is
    called with the map that sends exactly the input ids to the
    transactions [FindTransaction] finds for them. *)
Theorem VerifyTransaction_prevTXs (bc : BlockChain) (tx : Transaction) :
  Inv bc ->
  exists pre g, walk (blocks bc) (LastHash bc) pre g /\
  ((Exists (fun i => txn_on_chain (pre ++ [g]) (in_ID i) = None) (Inputs tx) /\
    VerifyTransaction tx bc = None) \/
   (Forall (fun i => is_Some (txn_on_chain (pre ++ [g]) (in_ID i))) (Inputs tx) /\
    exists prevTXs, VerifyTransaction tx bc = Some (tx_Verify tx prevTXs, bc) /\
    forall k, prevTXs !! k = if decide (k ∈ map in_ID (Inputs tx))
                             then txn_on_chain (pre ++ [g]) k else None)).
Proof.
  intros I.
  destruct (inv_chain bc I (LastHash bc) (inv_tip bc I)) as (pre & g & W & _).
  exists pre, g. split; [exact W|]. unfold VerifyTransaction, bind.
  destruct (collect_prevTXs_cases bc pre g (Inputs tx) I W)
    as [[Hex E]|[Hall (m & E & Hm)]]; rewrite E.
  - left. auto.
  - right. split; [exact Hall|]. exists m. auto.
Qed.

(** X12: [SignTransaction(tx, privKey)] gathers the previous transactions
    in the same way: fatal when an input's transaction is not on the
    current chain, otherwise [Sign] receives the map from exactly the
    input ids to the transactions found for them. *)
Theorem SignTransaction_prevTXs (bc : BlockChain) (tx : Transaction)
    (privKey : PrivateKey) :
  Inv bc ->
  exists pre g, walk (blocks bc) (LastHash bc) pre g /\
  ((Exists (fun i => txn_on_chain (pre ++ [g]) (in_ID i) = None) (Inputs tx) /\
    SignTransaction tx privKey bc = None) \/
   (Forall (fun i => is_Some (txn_on_chain (pre ++ [g]) (in_ID i))) (Inputs tx) /\
    exists prevTXs, SignTransaction tx privKey bc = Some (tx_Sign privKey prevTXs tx, bc) /\
    forall k, prevTXs !! k = if decide (k ∈ map in_ID (Inputs tx))
                             then txn_on_chain (pre ++ [g]) k else None)).
Proof.
  intros I.
  destruct (inv_chain bc I (LastHash bc) (inv_tip bc I)) as (pre & g & W & _).
  exists pre, g. split; [exact W|]. unfold SignTransaction, bind.
  destruct (collect_prevTXs_cases bc pre g (Inputs tx) I W)
    as [[Hex E]|[Hall (m & E & Hm)]]; rewrite E.
  - left. auto.
  - right. split; [exact Hall|]. exists m. auto.
Qed.

End TxCryptoExtras.

(** ** Database keys *)

(** X13: the key of a block never collides with the [LastHash] key, and
    different block hashes get different keys. *)
Theorem DBKeyForBlock_keys :
  (forall h, DBKeyForBlock h <> LastHashKey) /\
  (forall h1 h2, DBKeyForBlock h1 = DBKeyForBlock h2 -> h1 = h2).
Proof.
  split.
  - intros h. unfold DBKeyForBlock, BlockKeyPrefix, LastHashKey. simpl. discriminate.
  - intros h1 h2. unfold DBKeyForBlock. apply app_inv_head.
Qed.

(** ** evlib: miner selection and voter registration *)

Lemma list_find_eq_app (mAddr : string) (l1 l2 : list string) :
  mAddr ∉ l1 ->
  list_find (fun v => mAddr = v) (l1 ++ mAddr :: l2) = Some (length l1, mAddr).
Proof.
  induction l1 as [|x l1 IH]; intros Hn; simpl.
  - rewrite decide_True; reflexivity.
  - rewrite decide_False by (intros ->; apply Hn, elem_of_cons; auto).
    rewrite IH by (intros Hm; apply Hn, elem_of_cons; auto). reflexivity.
Qed.

Lemma list_find_eq_none (mAddr : string) (l : list string) :
  mAddr ∉ l -> list_find (fun v => mAddr = v) l = None.
Proof.
  induction l as [|x l IH]; intros Hn; simpl; [reflexivity|].
  rewrite decide_False by (intros ->; apply Hn, elem_of_cons; auto).
  rewrite IH by (intros Hm; apply Hn, elem_of_cons; auto). reflexivity.
Qed.

(** X14: [sliceMinerList(mAddr, list)] removes the first occurrence of
    [mAddr] and keeps the order of the other miners; a list without
    [mAddr] is returned unchanged. *)
Theorem sliceMinerList_remove_first (mAddr : string) :
  (forall l, mAddr ∉ l -> sliceMinerList mAddr l = l) /\
  (forall l1 l2, mAddr ∉ l1 -> sliceMinerList mAddr (l1 ++ mAddr :: l2) = l1 ++ l2).
Proof.
  split.
  - intros l Hn. unfold sliceMinerList. rewrite list_find_eq_none by exact Hn.
    reflexivity.
  - intros l1 l2 Hn. unfold sliceMinerList. rewrite list_find_eq_app by exact Hn.
    rewrite take_app_length, drop_app_ge by lia.
    replace (S (length l1) - length l1)%nat with 1%nat by lia. reflexivity.
Qed.

Lemma omap_lookup_seq (l : list string) (n : nat) :
  (n <= length l)%nat -> omap (fun i => l !! i) (seq 0 n) = take n l.
Proof.
  revert n. induction l as [|x l IH]; intros [|n] Hn; simpl in *; try reflexivity;
    [lia|].
  f_equal. rewrite <- seq_shift.
  transitivity (omap (fun i => l !! i) (seq 0 n)); [|apply IH; lia].
  clear. generalize (seq 0 n). induction l0 as [|i l0 IH]; simpl; [reflexivity|].
  destruct (l !! i); [f_equal|]; exact IH.
Qed.

(** X15: the miner [Vote] and [submitTxn] switch to is
    [MinerAddrList[rand.Intn(len-1)]]: with a single miner [rand.Intn(0)]
    panics, and otherwise only the first [len-1] miners can be drawn,
    so the last miner of the list is never chosen. *)
Theorem next_miner_choices_spec (minerList : list string) :
  next_miner_choices minerList =
  if (length minerList <=? 1)%nat then None
  else Some (take (length minerList - 1) minerList).
Proof.
  unfold next_miner_choices, Intn.
  destruct (Nat.leb_spec (length minerList) 1) as [Hl|Hl].
  - rewrite (proj2 (Z.leb_le _ 0)) by lia. reflexivity.
  - rewrite (proj2 (Z.leb_gt _ 0)) by lia. f_equal.
    replace (Z.to_nat (Z.of_nat (length minerList) - 1)) with (length minerList - 1)%nat
      by lia.
    rewrite <- omap_lookup_seq by lia.
    generalize (seq 0 (length minerList - 1)). intros l.
    induction l as [|i l IH]; simpl; [reflexivity|].
    rewrite Nat2Z.id. destruct (minerList !! i); [f_equal|]; exact IH.
Qed.

(** X16: [Vote] registers a voter under the record (name, candidate)
    but looks it up as (name, voter id). A voter whose id differs from
    the candidate is therefore never found: every vote registers them
    again and creates a new wallet. *)
Theorem vote_register_repeats (voterInfo : list VoterNameID)
    (from fromID to : string) :
  fromID <> to -> findVoterExist voterInfo from fromID = false ->
  let '(voterInfo', created) := vote_register voterInfo from fromID to in
  created = true /\ findVoterExist voterInfo' from fromID = false /\
  voterInfo' = voterInfo ++ [{| voter_Name := from; voter_ID := to |}].
Proof.
  intros Hne Hf. unfold vote_register. rewrite Hf. simpl.
  split; [reflexivity|]. split; [|reflexivity].
  unfold findVoterExist in *. rewrite existsb_app, Hf. simpl.
  rewrite (bool_decide_eq_false_2 (to = fromID)) by congruence.
  rewrite andb_false_r. reflexivity.
Qed.

(** ** Instances of the further properties on the concrete chain *)

Module ExtraWitnesses.
Import Scenario ScenarioFacts.

Ltac solve_walk :=
  match goal with
  | |- walk _ _ [] _ => apply walk_genesis; vm_compute; reflexivity
  | |- walk _ _ (_ :: _) _ =>
      apply walk_step; [vm_compute; reflexivity|vm_compute; discriminate|solve_walk]
  end.

Lemma st2_Inv : Inv st2.
Proof.
  apply reachable_Inv.
  eapply (reach_put st1 B2 true true); [|vm_compute; reflexivity].
  eapply (reach_put st0 B1 true true); [|vm_compute; reflexivity].
  apply (reach_init 0 (bs "G")). vm_compute. reflexivity.
Qed.

Lemma FindTransaction_result_witness :
  Inv st6 /\
  exists pre g, walk (blocks st6) (LastHash st6) pre g /\
  ((FindTransaction (bs "t1") st6 =
      Some (inr "Transaction does not exist", st6) /\
    forall b, b ∈ pre ++ [g] -> contains_txn b (bs "t1") = false) \/
   (exists j b tx, FindTransaction (bs "t1") st6 = Some (inl tx, st6) /\
    (pre ++ [g]) !! j = Some b /\ find_txn (Txns b) (bs "t1") = Some tx /\
    ID tx = bs "t1" /\
    forall j' b', (j' < j)%nat -> (pre ++ [g]) !! j' = Some b' ->
                  contains_txn b' (bs "t1") = false)).
Proof. split; [exact st6_Inv|exact (FindTransaction_result st6 (bs "t1") st6_Inv)]. Defined.

Lemma TxnStatus_FindTransaction_witness :
  Inv st6 /\
  exists pre g k r,
    walk (blocks st6) (LastHash st6) pre g /\
    TxnStatus (bs "t1") st6 = Some (k, st6) /\
    FindTransaction (bs "t1") st6 = Some (r, st6) /\
    ((k = -1 /\ r = inr "Transaction does not exist") \/
     (0 <= k /\ exists b tx, pre !! Z.to_nat k = Some b /\ r = inl tx /\
                             In tx (Txns b) /\ ID tx = bs "t1")).
Proof.
  split; [exact st6_Inv|exact (TxnStatus_FindTransaction st6 (bs "t1") st6_Inv)].
Defined.

Lemma Init_queries_empty_witness :
  Init false 0 (bs "G") = Some st0 /\
  TxnStatus (bs "t1") st0 = Some (-1, st0) /\
  FindTransaction (bs "t1") st0 = Some (inr "Transaction does not exist", st0) /\
  FindUnspentTransactions alice st0 = Some ([], st0).
Proof.
  assert (E : Init false 0 (bs "G") = Some st0) by (vm_compute; reflexivity).
  split; [exact E|exact (Init_queries_empty 0 (bs "G") st0 (bs "t1") alice E)].
Defined.

Lemma Put_append_only_witness :
  (Put B2' true st3 = Some (true, st4) /\ blocks st3 !! bs "B2" = Some B2) /\
  blocks st4 !! bs "B2" = Some B2.
Proof.
  assert (E : Put B2' true st3 = Some (true, st4)) by (vm_compute; reflexivity).
  assert (Hx : blocks st3 !! bs "B2" = Some B2) by (vm_compute; reflexivity).
  split; [split; [exact E|exact Hx]|].
  exact (Put_append_only B2' true st3 st4 true (bs "B2") B2 E Hx).
Defined.

Lemma Put_chain_extends_witness :
  (Inv st3 /\ Put B2' true st3 = Some (true, st4)) /\
  exists pre g, walk (blocks st3) (LastHash st3) pre g /\
   (walk (blocks st4) (LastHash st4) pre g \/
    (true = true /\ PrevHash B2' = LastHash st3 /\ LastHash st4 = Hash B2' /\
     walk (blocks st4) (LastHash st4) (B2' :: pre) g)).
Proof.
  assert (E : Put B2' true st3 = Some (true, st4)) by (vm_compute; reflexivity).
  split; [split; [exact st3_Inv|exact E]|].
  exact (Put_chain_extends B2' true st3 st4 true st3_Inv E).
Defined.

Lemma TxnStatus_after_Put_witness :
  (Inv st2 /\ Put B3 true st2 = Some (true, st3) /\ PrevHash B3 = LastHash st2) /\
  exists k, TxnStatus (bs "t2") st2 = Some (k, st2) /\
    TxnStatus (bs "t2") st3 =
      Some (if contains_txn B3 (bs "t2") then 0
            else if k =? -1 then -1 else k + 1, st3).
Proof.
  assert (E : Put B3 true st2 = Some (true, st3)) by (vm_compute; reflexivity).
  assert (Hp : PrevHash B3 = LastHash st2) by (vm_compute; reflexivity).
  split; [split; [exact st2_Inv|split; [exact E|exact Hp]]|].
  exact (TxnStatus_after_Put B3 true st2 st3 (bs "t2") st2_Inv E Hp).
Defined.

Definition st6_at_B1 : BlockChain := {| LastHash := bs "B1"; blocks := blocks st6 |}.

Lemma st6_at_B1_Inv : Inv st6_at_B1.
Proof.
  apply (Inv_retip st6 (bs "B1") st6_Inv). vm_compute. eexists. reflexivity.
Qed.

Lemma CheckoutFork_descendant_witness :
  (Inv st6_at_B1 /\
   walk (blocks st6_at_B1) (LastHash st6_at_B1) [B1] (Genesis 0 (bs "G")) /\
   walk (blocks st6_at_B1) (bs "B4'") ([B4'; B3'; B2'] ++ [B1]) (Genesis 0 (bs "G"))) /\
  CheckoutFork (bs "B4'") st6_at_B1 =
    Some ((concat (map Txns (rev [B4'; B3'; B2'])), []), st6_at_B1).
Proof.
  assert (WO : walk (blocks st6_at_B1) (LastHash st6_at_B1) [B1] (Genesis 0 (bs "G")))
    by solve_walk.
  assert (WN : walk (blocks st6_at_B1) (bs "B4'") ([B4'; B3'; B2'] ++ [B1])
                 (Genesis 0 (bs "G")))
    by (change ([B4'; B3'; B2'] ++ [B1]) with [B4'; B3'; B2'; B1]; solve_walk).
  split; [split; [exact st6_at_B1_Inv|split; [exact WO|exact WN]]|].
  exact (CheckoutFork_descendant st6_at_B1 (bs "B4'") [B4'; B3'; B2'] [B1]
           (Genesis 0 (bs "G")) st6_at_B1_Inv WO WN).
Defined.

Lemma CheckoutFork_ancestor_witness :
  (Inv st6 /\
   walk (blocks st6) (bs "B1") [B1] (Genesis 0 (bs "G")) /\
   walk (blocks st6) (LastHash st6) ([B3; B2] ++ [B1]) (Genesis 0 (bs "G"))) /\
  CheckoutFork (bs "B1") st6 =
    Some (([], concat (map Txns (rev [B3; B2]))), st6).
Proof.
  assert (WN : walk (blocks st6) (bs "B1") [B1] (Genesis 0 (bs "G"))) by solve_walk.
  assert (WO : walk (blocks st6) (LastHash st6) ([B3; B2] ++ [B1])
                 (Genesis 0 (bs "G")))
    by (change ([B3; B2] ++ [B1]) with [B3; B2; B1]; solve_walk).
  split; [split; [exact st6_Inv|split; [exact WN|exact WO]]|].
  exact (CheckoutFork_ancestor st6 (bs "B1") [B3; B2] [B1]
           (Genesis 0 (bs "G")) st6_Inv WN WO).
Defined.

Lemma CheckoutFork_swap_witness :
  (Inv st6 /\ is_Some (blocks st6 !! bs "B4'") /\
   CheckoutFork (bs "B4'") st6 = Some (([U2; U3; U4], [T2; T3]), st6)) /\
  let bc' := {| LastHash := bs "B4'"; blocks := blocks st6 |} in
  CheckoutFork (LastHash st6) bc' = Some (([T2; T3], [U2; U3; U4]), bc').
Proof.
  assert (Hs : is_Some (blocks st6 !! bs "B4'")) by (vm_compute; eexists; reflexivity).
  assert (E : CheckoutFork (bs "B4'") st6 = Some (([U2; U3; U4], [T2; T3]), st6))
    by (vm_compute; reflexivity).
  split; [split; [exact st6_Inv|split; [exact Hs|exact E]]|].
  exact (CheckoutFork_swap st6 (bs "B4'") _ _ st6_Inv Hs E).
Defined.

Lemma FindSpendableOutputs_nonpositive_witness :
  (FindUnspentTransactions alice st3 = Some ([T1b; T1b; T1], st3) /\ 0 <= 0) /\
  FindSpendableOutputs alice 0 st3 = Some ((0, ∅), st3).
Proof.
  assert (E : FindUnspentTransactions alice st3 = Some ([T1b; T1b; T1], st3))
    by (vm_compute; reflexivity).
  split; [split; [exact E|lia]|].
  exact (FindSpendableOutputs_nonpositive alice 0 st3 st3 _ E ltac:(lia)).
Defined.

Lemma VerifyTransaction_prevTXs_witness :
  Inv st6 /\
  exists pre g, walk (blocks st6) (LastHash st6) pre g /\
  ((Exists (fun i => txn_on_chain (pre ++ [g]) (in_ID i) = None) (Inputs T2) /\
    VerifyTransaction T2 st6 = None) \/
   (Forall (fun i => is_Some (txn_on_chain (pre ++ [g]) (in_ID i))) (Inputs T2) /\
    exists prevTXs, VerifyTransaction T2 st6 = Some (tx_Verify T2 prevTXs, st6) /\
    forall k, prevTXs !! k = if decide (k ∈ map in_ID (Inputs T2))
                             then txn_on_chain (pre ++ [g]) k else None)).
Proof. split; [exact st6_Inv|exact (VerifyTransaction_prevTXs st6 T2 st6_Inv)]. Defined.

Lemma SignTransaction_prevTXs_witness :
  Inv st6 /\
  exists pre g, walk (blocks st6) (LastHash st6) pre g /\
  ((Exists (fun i => txn_on_chain (pre ++ [g]) (in_ID i) = None) (Inputs T2) /\
    SignTransaction T2 alice st6 = None) \/
   (Forall (fun i => is_Some (txn_on_chain (pre ++ [g]) (in_ID i))) (Inputs T2) /\
    exists prevTXs, SignTransaction T2 alice st6 = Some (tx_Sign alice prevTXs T2, st6) /\
    forall k, prevTXs !! k = if decide (k ∈ map in_ID (Inputs T2))
                             then txn_on_chain (pre ++ [g]) k else None)).
Proof. split; [exact st6_Inv|exact (SignTransaction_prevTXs st6 T2 alice st6_Inv)]. Defined.

Lemma DBKeyForBlock_keys_witness :
  DBKeyForBlock (bs "B1") <> LastHashKey /\
  (DBKeyForBlock (bs "B1") = DBKeyForBlock (bs "B1") -> bs "B1" = bs "B1").
Proof.
  split; [exact (proj1 DBKeyForBlock_keys (bs "B1"))|].
  exact (proj2 DBKeyForBlock_keys (bs "B1") (bs "B1")).
Defined.

Lemma sliceMinerList_remove_first_witness :
  (("m2" ∉ ["m1"]) /\ sliceMinerList "m2" (["m1"] ++ "m2" :: ["m3"; "m2"]) =
                    ["m1"] ++ ["m3"; "m2"]) /\
  (("m4" ∉ ["m1"; "m2"]) /\ sliceMinerList "m4" ["m1"; "m2"] = ["m1"; "m2"]).
Proof.
  assert (H1 : "m2" ∉ ["m1"]) by (rewrite list_elem_of_singleton; discriminate).
  assert (H2 : "m4" ∉ ["m1"; "m2"])
    by (intros Hm; apply elem_of_cons in Hm as [Hm|Hm];
        [discriminate|apply list_elem_of_singleton in Hm; discriminate]).
  split; split; [exact H1| |exact H2|].
  - exact (proj2 (sliceMinerList_remove_first "m2") ["m1"] ["m3"; "m2"] H1).
  - exact (proj1 (sliceMinerList_remove_first "m4") ["m1"; "m2"] H2).
Defined.

Lemma vote_register_repeats_witness :
  ("1" <> "c" /\ findVoterExist [] "v" "1" = false) /\
  let '(voterInfo', created) := vote_register [] "v" "1" "c" in
  created = true /\ findVoterExist voterInfo' "v" "1" = false /\
  voterInfo' = [] ++ [{| voter_Name := "v"; voter_ID := "c" |}].
Proof.
  assert (Hne : "1" <> "c") by discriminate.
  assert (Hf : findVoterExist [] "v" "1" = false) by reflexivity.
  split; [split; [exact Hne|exact Hf]|].
  exact (vote_register_repeats [] "v" "1" "c" Hne Hf).
Defined.

End ExtraWitnesses.
